(** * local_league: standings, head-to-head matrix, season store and season API

    A shallow embedding of [local_league/models.py], [local_league/repository.py]
    and [local_league/api.py].

    Conventions of the embedding:
    - [uuid.UUID] is a 128-bit number, here [N];
    - Python [int] is [Z]; [str] is [string]; [Optional[T]] is [option T];
    - [datetime.date] is its proleptic ordinal ([date.toordinal]), a [Z];
      [datetime.datetime] is a count of microseconds, a [Z];
    - Python [float] arithmetic is taken through the interface [FloatOps]
      (the literals [0.0], [0.5], [1.0], [+] and [*]).  Two instances are
      given: IEEE binary64 ([SpecFloat], what CPython computes) and the exact
      rationals [Qc].  The properties are proved for every instance, so for
      binary64; [ExactArith] only serves to say what a sum is when nothing
      is rounded;
    - a Python [dict] read by key is a [gmap]; the one [dict] that is iterated
      ([standings]) is an association list in insertion order;
    - a raised [KeyError], [OverflowError], [sqlite3.IntegrityError] or
      [sqlite3.ProgrammingError] is [None];
    - what a [REAL] column keeps of a float is taken through [FloatStore]. *)

From Stdlib Require Import QArith Qcanon SpecFloat.
From stdpp Require Import base option list gmap numbers strings sorting.

Local Open Scope Z_scope.

Abbreviation UUID := N (only parsing).
Abbreviation date := Z (only parsing).
Abbreviation datetime := Z (only parsing).

(** ** Float arithmetic *)

Class FloatOps (F : Type) := {
  f0_0 : F;                 (* 0.0 *)
  f0_5 : F;                 (* 0.5 *)
  f1_0 : F;                 (* 1.0 *)
  fadd : F → F → F;         (* x + y *)
  fmul : F → F → F;         (* x * y *)
}.

Declare Scope float_scope.
Delimit Scope float_scope with flt.
Infix "⊕" := fadd (at level 50, left associativity) : float_scope.
Infix "⊗" := fmul (at level 40, left associativity) : float_scope.
Local Open Scope float_scope.

(** Arithmetic without rounding: what the summation identities need. *)
Class ExactArith (F : Type) `{FloatOps F} : Prop := {
  fadd_assoc (x y z : F) : x ⊕ (y ⊕ z) = (x ⊕ y) ⊕ z;
  fadd_comm (x y : F) : x ⊕ y = y ⊕ x;
  fadd_0_r (x : F) : x ⊕ f0_0 = x;
  fmul_half_half (x : F) : x ⊗ f0_5 ⊕ x ⊗ f0_5 = x;
}.

(** IEEE 754 binary64, round to nearest even. *)
Definition binary64 : Type := spec_float.

#[export] Instance binary64_ops : FloatOps binary64 := {|
  f0_0 := S754_zero false;
  f0_5 := S754_finite false 4503599627370496 (-53);
  f1_0 := S754_finite false 4503599627370496 (-52);
  fadd := SFadd 53 1024;
  fmul := SFmul 53 1024;
|}.

(** Exact rationals. *)
#[export] Instance Qc_ops : FloatOps Qc := {|
  f0_0 := Q2Qc 0;
  f0_5 := Q2Qc (1 # 2);
  f1_0 := Q2Qc 1;
  fadd := Qcplus;
  fmul := Qcmult;
|}.

(** What a [REAL NOT NULL] column keeps of a float and gives back on reading:
    SQLite binds NaN as NULL, which the column refuses ([None]), and keeps
    [-0.0] as [0.0]; every other value comes back as it went in. *)
Class FloatStore (F : Type) := {
  f_stored : F → option F;
}.

#[export] Instance binary64_store : FloatStore binary64 := {|
  f_stored x :=
    match x with
    | S754_nan => None
    | S754_zero _ => Some (S754_zero false)
    | _ => Some x
    end;
|}.

#[export] Instance Qc_store : FloatStore Qc := {|
  f_stored x := Some x;
|}.

(** ** models.py *)

Inductive MatchOutcome := PLAYER_ONE_WIN | PLAYER_TWO_WIN | DRAW.

#[export] Instance MatchOutcome_eq_dec : EqDecision MatchOutcome.
Proof. solve_decision. Defined.

(** [outcome.value] *)
Definition MatchOutcome_value (outcome : MatchOutcome) : string :=
  match outcome with
  | PLAYER_ONE_WIN => "player_one_win"
  | PLAYER_TWO_WIN => "player_two_win"
  | DRAW => "draw"
  end.

(** [MatchOutcome(value)]; [None] is the [ValueError] for a string that is the
    value of no member. *)
Definition MatchOutcome_of_value (value : string) : option MatchOutcome :=
  if decide (value = "player_one_win"%string) then Some PLAYER_ONE_WIN
  else if decide (value = "player_two_win"%string) then Some PLAYER_TWO_WIN
  else if decide (value = "draw"%string) then Some DRAW
  else None.

Module Player.
Record t := mk {
  id : UUID;
  display_name : string;
  created_at : datetime;
  is_active : bool;
  notes : option string;
}.
End Player.

Module SeasonParticipant.
Record t := mk {
  season_id : UUID;
  player_id : UUID;
  seed : option Z;
  alias : option string;
}.
End SeasonParticipant.

Module Season.
Record t := mk {
  id : UUID;
  title : string;
  starts_on : date;
  ends_on : date;
  created_at : datetime;
  description : option string;
}.
End Season.

Module EventDay.
Record t {F : Type} := mk {
  id : UUID;
  season_id : UUID;
  title : string;
  held_on : date;
  weight : F;
  created_at : datetime;
  notes : option string;
}.
Arguments t : clear implicits.
End EventDay.

Module Match.
Record t := mk {
  id : UUID;
  event_id : UUID;
  player_one_id : UUID;
  player_two_id : UUID;
  outcome : MatchOutcome;
  winner_id : option UUID;
  created_at : datetime;
  notes : option string;
}.

Section methods.
Context `{FloatOps F}.

Definition points_for_player (self : t) (player_id : UUID) (weight : F) : F :=
  if decide (outcome self = DRAW) then f0_5 ⊗ weight
  else match winner_id self with
       | None => f0_0
       | Some winner => if decide (winner = player_id) then weight else f0_0
       end.
End methods.

Definition opponent_of (self : t) (player_id : UUID) : option UUID :=
  if decide (player_id = player_one_id self) then Some (player_two_id self)
  else if decide (player_id = player_two_id self) then Some (player_one_id self)
  else None.
End Match.

Module SeasonStanding.
Record t {F : Type} := mk {
  season_id : UUID;
  player_id : UUID;
  wins : Z;
  losses : Z;
  draws : Z;
  weighted_points : F;
}.
Arguments t : clear implicits.

Section methods.
Context `{FloatOps F}.

(** [SeasonStanding(season_id=..., player_id=...)]: the defaults. *)
Definition new (season_id player_id : UUID) : t F :=
  mk F season_id player_id 0 0 0 f0_0.

(** The method mutates [self]; the updated object is returned. *)
Definition record_match (self : t F) (m : Match.t) (event_weight : F) : t F :=
  if decide (Match.outcome m = DRAW) then
    mk F (season_id self) (player_id self) (wins self) (losses self)
       (draws self + 1) (weighted_points self ⊕ event_weight ⊗ f0_5)
  else if decide (Match.winner_id m = Some (player_id self)) then
    mk F (season_id self) (player_id self) (wins self + 1) (losses self)
       (draws self) (weighted_points self ⊕ event_weight)
  else if decide (Match.winner_id m ≠ None) then
    mk F (season_id self) (player_id self) (wins self) (losses self + 1)
       (draws self) (weighted_points self)
  else self.
End methods.
End SeasonStanding.

(** A dict comprehension [{k: v for ...}]: keys are inserted in iteration
    order and a repeated key keeps the value seen last. *)
Definition dict_comp {K} `{Countable K} {V} (kvs : list (K * V)) : gmap K V :=
  foldl (λ d kv, <[kv.1 := kv.2]> d) ∅ kvs.

Module SeasonMatrix.
Record t {F : Type} := mk {
  season_id : UUID;
  player_order : list UUID;
  rows : gmap UUID (gmap UUID F);
}.
Arguments t : clear implicits.

Section methods.
Context `{FloatOps F}.

(** [{player_id: {opponent_id: 0.0 for opponent_id in player_order}
      for player_id in player_order}] *)
Definition zero_rows (player_order : list UUID) : gmap UUID (gmap UUID F) :=
  dict_comp ((λ player_id,
    (player_id, dict_comp ((λ opponent_id, (opponent_id, f0_0)) <$> player_order)))
    <$> player_order).

(** [{event.id: event.weight for event in events}] *)
Definition event_weights (events : list (EventDay.t F)) : gmap UUID F :=
  dict_comp ((λ event, (EventDay.id event, EventDay.weight event)) <$> events).

(** [rows[a][b] += w]: both subscripts raise [KeyError] on a missing key. *)
Definition add_cell (rows : gmap UUID (gmap UUID F)) (a b : UUID) (w : F)
  : option (gmap UUID (gmap UUID F)) :=
  row ← rows !! a;
  cell ← row !! b;
  Some (<[a := <[b := cell ⊕ w]> row]> rows).

(** The body of [for match in matches]. *)
Definition add_match (weights : gmap UUID F) (rows : gmap UUID (gmap UUID F))
  (m : Match.t) : option (gmap UUID (gmap UUID F)) :=
  let weight := default f1_0 (weights !! Match.event_id m) in
  if decide (Match.outcome m = DRAW) then
    rows' ← add_cell rows (Match.player_one_id m) (Match.player_two_id m) (weight ⊗ f0_5);
    add_cell rows' (Match.player_two_id m) (Match.player_one_id m) (weight ⊗ f0_5)
  else if decide (Match.winner_id m = Some (Match.player_one_id m)) then
    add_cell rows (Match.player_one_id m) (Match.player_two_id m) weight
  else if decide (Match.winner_id m = Some (Match.player_two_id m)) then
    add_cell rows (Match.player_two_id m) (Match.player_one_id m) weight
  else Some rows.

Fixpoint add_matches (weights : gmap UUID F) (rows : gmap UUID (gmap UUID F))
  (matches : list Match.t) : option (gmap UUID (gmap UUID F)) :=
  match matches with
  | [] => Some rows
  | m :: rest => rows' ← add_match weights rows m; add_matches weights rows' rest
  end.

Definition build (season_id : UUID) (player_ids : list UUID)
  (events : list (EventDay.t F)) (matches : list Match.t) : option (t F) :=
  let player_order := player_ids in
  let rows := zero_rows player_order in
  let event_weights := event_weights events in
  rows' ← add_matches event_weights rows matches;
  Some (mk F season_id player_order rows').
End methods.
End SeasonMatrix.

(** ** repository.py *)

(** A [dict] whose iteration order is observed: pairs in insertion order,
    assignment to a key already present keeps its position. *)
Fixpoint odict_set {V} (k : UUID) (v : V) (d : list (UUID * V)) : list (UUID * V) :=
  match d with
  | [] => [(k, v)]
  | (k', v') :: rest =>
      if decide (k' = k) then (k, v) :: rest else (k', v') :: odict_set k v rest
  end.

Definition odict_comp {V} (kvs : list (UUID * V)) : list (UUID * V) :=
  foldl (λ d kv, odict_set kv.1 kv.2 d) [] kvs.

(** [ORDER BY seed]: SQLite puts NULL before every integer. *)
Definition seed_le (x y : option Z) : Prop :=
  match x, y with
  | None, _ => True
  | Some _, None => False
  | Some a, Some b => a ≤ b
  end.

#[export] Instance seed_le_dec (x y : option Z) : Decision (seed_le x y).
Proof. destruct x, y; simpl; apply _. Defined.

Definition by_seed (p q : SeasonParticipant.t) : Prop :=
  seed_le (SeasonParticipant.seed p) (SeasonParticipant.seed q).

#[export] Instance by_seed_dec : RelDecision by_seed.
Proof. intros p q. unfold by_seed. apply _. Defined.

(** [ORDER BY held_on] *)
Definition by_held_on {F} (e e' : EventDay.t F) : Prop :=
  EventDay.held_on e ≤ EventDay.held_on e'.

#[export] Instance by_held_on_dec {F} : RelDecision (@by_held_on F).
Proof. intros e e'. unfold by_held_on. apply _. Defined.

(** A foreign key column that may be NULL: NULL is accepted, any other value
    must be a key of the parent table. *)
Definition nullable_reference (key : option UUID) (parent_ids : list UUID) : Prop :=
  match key with
  | None => True
  | Some k => k ∈ parent_ids
  end.

#[export] Instance nullable_reference_dec key parent_ids :
  Decision (nullable_reference key parent_ids).
Proof. destruct key; simpl; apply _. Defined.

(** An [INTEGER] column takes NULL and the 64-bit integers; binding a Python
    [int] outside that range raises [OverflowError]. *)
Definition sqlite_integer (value : option Z) : Prop :=
  match value with
  | None => True
  | Some z => -9223372036854775808 ≤ z ≤ 9223372036854775807
  end.

#[export] Instance sqlite_integer_dec value : Decision (sqlite_integer value).
Proof. destruct value; simpl; apply _. Defined.

(** [ORDER BY starts_on] *)
Definition by_starts_on (s s' : Season.t) : Prop :=
  Season.starts_on s ≤ Season.starts_on s'.

#[export] Instance by_starts_on_dec : RelDecision by_starts_on.
Proof. intros s s'. unfold by_starts_on. apply _. Defined.

(** What the database keeps of a [datetime]:
    [value.replace(microsecond=0).isoformat(timespec="seconds")], read back by
    [_parse_datetime]. *)
Definition _iso_datetime (value : datetime) : datetime := value `div` 1000000 * 1000000.

Inductive Raised := ValueError | KeyError.

Module LocalLeagueRepository.
Section repository.
Context `{FloatOps F}.

(** The SQLite file: one list of rows per table of [initialize_schema], each
    row kept as the record the [list_*] and [get_*] methods rebuild from it. *)
Record db := mk {
  players : list Player.t;
  seasons : list Season.t;
  season_participants : list SeasonParticipant.t;
  events : list (EventDay.t F);
  matches : list Match.t;
}.

(** [INSERT INTO seasons]: [id TEXT PRIMARY KEY] rejects a repeated id with
    [sqlite3.IntegrityError]; nothing is committed then. *)
Definition add_season (self : db) (season : Season.t) : option db :=
  if decide (Season.id season ∈ Season.id <$> seasons self) then None
  else Some (mk (players self)
                (seasons self ++
                   [Season.mk (Season.id season) (Season.title season)
                      (Season.starts_on season) (Season.ends_on season)
                      (_iso_datetime (Season.created_at season))
                      (Season.description season)])
                (season_participants self) (events self) (matches self)).

(** [uuid.uuid4()] and [datetime.utcnow()] are inputs. *)
Definition create_season (self : db) (uuid4 : UUID) (utcnow : datetime)
  (title : string) (starts_on ends_on : date) (description : option string)
  : option (Season.t * db) :=
  let season := Season.mk uuid4 title starts_on ends_on utcnow description in
  self' ← add_season self season;
  Some (season, self').

(** [SELECT * FROM season_participants WHERE season_id = ? ORDER BY seed];
    the order SQLite gives rows of equal seed is not fixed, here they keep
    the order of the table. *)
Definition list_season_participants (self : db) (season_id : UUID)
  : list SeasonParticipant.t :=
  merge_sort by_seed
    (filter (λ p, SeasonParticipant.season_id p = season_id) (season_participants self)).

(** [SELECT * FROM seasons WHERE id = ?], [fetchone()] *)
Definition get_season (self : db) (season_id : UUID) : option Season.t :=
  head (filter (λ s, Season.id s = season_id) (seasons self)).

(** [UPDATE seasons SET title, starts_on, ends_on, description WHERE id = ?] *)
Definition update_season (self : db) (season : Season.t) : option Season.t * db :=
  let rowcount := length (filter (λ s, Season.id s = Season.id season) (seasons self)) in
  let self' :=
    mk (players self)
       ((λ s, if decide (Season.id s = Season.id season)
              then Season.mk (Season.id s) (Season.title season)
                     (Season.starts_on season) (Season.ends_on season)
                     (Season.created_at s) (Season.description season)
              else s) <$> seasons self)
       (season_participants self) (events self) (matches self) in
  if decide (rowcount = 0%nat) then (None, self') else (Some season, self').

(** [DELETE FROM seasons WHERE id = ?] with [PRAGMA foreign_keys = ON]:
    [season_participants.season_id] and [events.season_id] reference
    [seasons (id) ON DELETE CASCADE], [matches.event_id] references
    [events (id) ON DELETE CASCADE]. *)
Definition delete_season (self : db) (season_id : UUID) : bool * db :=
  let rowcount := length (filter (λ s, Season.id s = season_id) (seasons self)) in
  let gone := filter (λ e, EventDay.season_id e = season_id) (events self) in
  let self' :=
    if decide (rowcount = 0%nat) then self
    else mk (players self)
            (filter (λ s, Season.id s ≠ season_id) (seasons self))
            (filter (λ p, SeasonParticipant.season_id p ≠ season_id)
               (season_participants self))
            (filter (λ e, EventDay.season_id e ≠ season_id) (events self))
            (filter (λ m, Match.event_id m ∉ EventDay.id <$> gone) (matches self)) in
  (bool_decide (0 < rowcount)%nat, self').

(** [SELECT * FROM events WHERE season_id = ? ORDER BY held_on] *)
Definition list_events (self : db) (season_id : UUID) : list (EventDay.t F) :=
  merge_sort by_held_on
    (filter (λ e, EventDay.season_id e = season_id) (events self)).

(** [SELECT * FROM matches WHERE event_id IN (...)] *)
Definition list_matches_for_events (self : db) (event_ids : list UUID) : list Match.t :=
  let ids := event_ids in
  if decide (ids = []) then []
  else filter (λ m, Match.event_id m ∈ ids) (matches self).

Definition compute_season_matrix (self : db) (season_id : UUID)
  : Raised + SeasonMatrix.t F :=
  match get_season self season_id with
  | None => inl ValueError
  | Some season =>
      let participants := list_season_participants self season_id in
      let player_ids := SeasonParticipant.player_id <$> participants in
      let events := list_events self season_id in
      let matches := list_matches_for_events self (EventDay.id <$> events) in
      match SeasonMatrix.build season_id player_ids events matches with
      | None => inl KeyError
      | Some matrix => inr matrix
      end
  end.

(** [for player_id, standing in standings.items(): if player_id in (...)] *)
Definition record_in_all (standings : list (UUID * SeasonStanding.t F))
  (m : Match.t) (weight : F) : list (UUID * SeasonStanding.t F) :=
  (λ item, (item.1,
     if decide (item.1 = Match.player_one_id m ∨ item.1 = Match.player_two_id m)
     then SeasonStanding.record_match item.2 m weight else item.2)) <$> standings.

Definition compute_season_standings (self : db) (season_id : UUID)
  : list (SeasonStanding.t F) :=
  let events := list_events self season_id in
  let matches := list_matches_for_events self (EventDay.id <$> events) in
  let standings :=
    odict_comp ((λ participant,
      (SeasonParticipant.player_id participant,
       SeasonStanding.new season_id (SeasonParticipant.player_id participant)))
      <$> list_season_participants self season_id) in
  let event_weights :=
    dict_comp ((λ event, (EventDay.id event, EventDay.weight event)) <$> events) in
  let standings :=
    foldl (λ standings m,
             let weight := default f1_0 (event_weights !! Match.event_id m) in
             record_in_all standings m weight)
          standings matches in
  standings.*2.
(** [INSERT INTO players]: [id TEXT PRIMARY KEY]. *)
Definition add_player (self : db) (player : Player.t) : option db :=
  if decide (Player.id player ∈ Player.id <$> players self) then None
  else Some (mk (players self ++
                   [Player.mk (Player.id player) (Player.display_name player)
                      (_iso_datetime (Player.created_at player))
                      (Player.is_active player) (Player.notes player)])
                (seasons self) (season_participants self) (events self)
                (matches self)).

Definition create_player (self : db) (uuid4 : UUID) (utcnow : datetime)
  (display_name : string) (notes : option string) : option (Player.t * db) :=
  let player := Player.mk uuid4 display_name utcnow true notes in
  self' ← add_player self player;
  Some (player, self').

(** With [active_only] the query text [... WHERE is_active = 1] has no
    placeholder while [params] is [(1,)]: [execute] raises
    [sqlite3.ProgrammingError] (incorrect number of bindings), here [None]. *)
Definition list_players (self : db) (active_only : bool) : option (list Player.t) :=
  if active_only then None else Some (players self).

(** [UPDATE players SET is_active = ? WHERE id = ?]; the row count is not
    looked at. *)
Definition set_player_active (self : db) (player_id : UUID) (is_active : bool) : db :=
  mk ((λ p, if decide (Player.id p = player_id)
            then Player.mk (Player.id p) (Player.display_name p)
                   (Player.created_at p) is_active (Player.notes p)
            else p) <$> players self)
     (seasons self) (season_participants self) (events self) (matches self).

(** [SELECT * FROM seasons ORDER BY starts_on] *)
Definition list_seasons (self : db) : list Season.t :=
  merge_sort by_starts_on (seasons self).

(** [INSERT OR REPLACE INTO season_participants]: a row with the same
    [(season_id, player_id)] is removed and the new row added; the two foreign
    keys are still enforced, and the seed has to fit the [INTEGER] column. *)
Definition add_season_participant (self : db) (participant : SeasonParticipant.t)
  : option db :=
  if decide (sqlite_integer (SeasonParticipant.seed participant) ∧
             SeasonParticipant.season_id participant ∈ Season.id <$> seasons self ∧
             SeasonParticipant.player_id participant ∈ Player.id <$> players self)
  then Some (mk (players self) (seasons self)
               (filter (λ q, ¬ (SeasonParticipant.season_id q
                                = SeasonParticipant.season_id participant ∧
                                SeasonParticipant.player_id q
                                = SeasonParticipant.player_id participant))
                  (season_participants self) ++ [participant])
               (events self) (matches self))
  else None.
End repository.

Section repository_events.
Context `{FloatOps F} `{!FloatStore F}.

(** [INSERT INTO events]: [id TEXT PRIMARY KEY], [weight REAL NOT NULL],
    [season_id] references [seasons (id)]. *)
Definition add_event (self : db (F:=F)) (event : EventDay.t F) : option (db (F:=F)) :=
  if decide (EventDay.id event ∈ EventDay.id <$> events self) then None
  else if decide (EventDay.season_id event ∈ Season.id <$> seasons self) then
    weight ← f_stored (EventDay.weight event);
    Some (mk (players self) (seasons self) (season_participants self)
            (events self ++
               [EventDay.mk F (EventDay.id event) (EventDay.season_id event)
                  (EventDay.title event) (EventDay.held_on event) weight
                  (_iso_datetime (EventDay.created_at event)) (EventDay.notes event)])
            (matches self))
  else None.

Definition create_event (self : db (F:=F)) (uuid4 : UUID) (utcnow : datetime)
  (season_id : UUID) (title : string) (held_on : date) (weight : F)
  (notes : option string) : option (EventDay.t F * db (F:=F)) :=
  let event := EventDay.mk F uuid4 season_id title held_on weight utcnow notes in
  self' ← add_event self event;
  Some (event, self').

(** [INSERT INTO matches]: [id TEXT PRIMARY KEY]; [event_id] references
    [events (id)]; [player_one_id], [player_two_id] and a [winner_id] that is
    not NULL reference [players (id)]. *)
Definition add_match (self : db (F:=F)) (m : Match.t) : option (db (F:=F)) :=
  if decide (Match.id m ∈ Match.id <$> matches self) then None
  else if decide (Match.event_id m ∈ EventDay.id <$> events self ∧
                  Match.player_one_id m ∈ Player.id <$> players self ∧
                  Match.player_two_id m ∈ Player.id <$> players self ∧
                  nullable_reference (Match.winner_id m) (Player.id <$> players self))
  then Some (mk (players self) (seasons self) (season_participants self)
               (events self)
               (matches self ++
                  [Match.mk (Match.id m) (Match.event_id m) (Match.player_one_id m)
                     (Match.player_two_id m) (Match.outcome m) (Match.winner_id m)
                     (_iso_datetime (Match.created_at m)) (Match.notes m)]))
  else None.

Definition create_match (self : db (F:=F)) (uuid4 : UUID) (utcnow : datetime)
  (event_id player_one_id player_two_id : UUID) (outcome : MatchOutcome)
  (winner_id : option UUID) (notes : option string)
  : option (Match.t * db (F:=F)) :=
  let m := Match.mk uuid4 event_id player_one_id player_two_id outcome winner_id
             utcnow notes in
  self' ← add_match self m;
  Some (m, self').
End repository_events.
Arguments db : clear implicits.
End LocalLeagueRepository.

(** ** api.py *)

Module SeasonCreate.
Record t := mk {
  title : string;
  starts_on : date;
  ends_on : date;
  description : option string;
}.
End SeasonCreate.

Module SeasonUpdate.
Record t := mk {
  title : option string;
  starts_on : option date;
  ends_on : option date;
  description : option string;
}.
End SeasonUpdate.

Module SeasonResponse.
Record t := mk {
  id : UUID;
  title : string;
  starts_on : date;
  ends_on : date;
  created_at : datetime;
  description : option string;
}.
End SeasonResponse.

(** How a handler ends: it returns (the route's [status_code], 200 when the
    decorator names none), raises [HTTPException], or lets another exception
    through. *)
Inductive Reply (A : Type) :=
| Returned (status_code : Z) (body : A)
| HTTPException (status_code : Z) (detail : string)
| Unhandled.
Arguments Returned {A}.
Arguments HTTPException {A}.
Arguments Unhandled {A}.

Definition HTTP_200_OK : Z := 200.
Definition HTTP_201_CREATED : Z := 201.
Definition HTTP_204_NO_CONTENT : Z := 204.
Definition HTTP_404_NOT_FOUND : Z := 404.
Definition HTTP_422_UNPROCESSABLE_ENTITY : Z := 422.

Module Api.
Section handlers.
Context `{FloatOps F}.

Definition _season_to_response (season : Season.t) : SeasonResponse.t :=
  SeasonResponse.mk (Season.id season) (Season.title season)
    (Season.starts_on season) (Season.ends_on season)
    (Season.created_at season) (Season.description season).

(** [Some] is the exception raised, [None] a normal return. *)
Definition _validate_date_range (starts_on ends_on : date) : option (Z * string) :=
  if decide (ends_on < starts_on) then
    Some (HTTP_422_UNPROCESSABLE_ENTITY, "ends_on must be on or after starts_on"%string)
  else None.

Definition create_season (payload : SeasonCreate.t) (uuid4 : UUID) (utcnow : datetime)
  (repository : LocalLeagueRepository.db F)
  : Reply SeasonResponse.t * LocalLeagueRepository.db F :=
  match _validate_date_range (SeasonCreate.starts_on payload) (SeasonCreate.ends_on payload) with
  | Some (status_code, detail) => (HTTPException status_code detail, repository)
  | None =>
      match LocalLeagueRepository.create_season repository uuid4 utcnow
              (SeasonCreate.title payload) (SeasonCreate.starts_on payload)
              (SeasonCreate.ends_on payload) (SeasonCreate.description payload) with
      | None => (Unhandled, repository)
      | Some (season, repository') =>
          (Returned HTTP_201_CREATED (_season_to_response season), repository')
      end
  end.

Definition list_seasons (repository : LocalLeagueRepository.db F)
  : Reply (list SeasonResponse.t) * LocalLeagueRepository.db F :=
  let seasons := LocalLeagueRepository.list_seasons repository in
  (Returned HTTP_200_OK (_season_to_response <$> seasons), repository).

Definition get_season (season_id : UUID) (repository : LocalLeagueRepository.db F)
  : Reply SeasonResponse.t * LocalLeagueRepository.db F :=
  match LocalLeagueRepository.get_season repository season_id with
  | None => (HTTPException HTTP_404_NOT_FOUND "Season not found", repository)
  | Some season => (Returned HTTP_200_OK (_season_to_response season), repository)
  end.

Definition update_season (season_id : UUID) (payload : SeasonUpdate.t)
  (repository : LocalLeagueRepository.db F)
  : Reply SeasonResponse.t * LocalLeagueRepository.db F :=
  match LocalLeagueRepository.get_season repository season_id with
  | None => (HTTPException HTTP_404_NOT_FOUND "Season not found", repository)
  | Some existing =>
      let updated :=
        Season.mk (Season.id existing)
          (default (Season.title existing) (SeasonUpdate.title payload))
          (default (Season.starts_on existing) (SeasonUpdate.starts_on payload))
          (default (Season.ends_on existing) (SeasonUpdate.ends_on payload))
          (Season.created_at existing)
          (match SeasonUpdate.description payload with
           | Some d => Some d
           | None => Season.description existing
           end) in
      match _validate_date_range (Season.starts_on updated) (Season.ends_on updated) with
      | Some (status_code, detail) => (HTTPException status_code detail, repository)
      | None =>
          match LocalLeagueRepository.update_season repository updated with
          | (None, repository') =>
              (HTTPException HTTP_404_NOT_FOUND "Season not found", repository')
          | (Some saved, repository') =>
              (Returned HTTP_200_OK (_season_to_response saved), repository')
          end
      end
  end.

Definition delete_season (season_id : UUID) (repository : LocalLeagueRepository.db F)
  : Reply unit * LocalLeagueRepository.db F :=
  match LocalLeagueRepository.delete_season repository season_id with
  | (false, repository') =>
      (HTTPException HTTP_404_NOT_FOUND "Season not found", repository')
  | (true, repository') => (Returned HTTP_204_NO_CONTENT (), repository')
  end.
End handlers.
End Api.

(** ** Vocabulary of the properties *)

Section vocabulary.
Context `{FloatOps F}.

(** [rows[a][b]] read, [None] when either key is missing. *)
Definition get_cell (rows : gmap UUID (gmap UUID F)) (a b : UUID) : option F :=
  row ← rows !! a; row !! b.

(** The weight [build] and [compute_season_standings] give a match:
    [event_weights.get(match.event_id, 1.0)]. *)
Definition match_weight (events : list (EventDay.t F)) (m : Match.t) : F :=
  default f1_0 (SeasonMatrix.event_weights events !! Match.event_id m).

(** A match between [a] and [b], whichever of them is player one. *)
Definition between (a b : UUID) (m : Match.t) : Prop :=
  (Match.player_one_id m = a ∧ Match.player_two_id m = b) ∨
  (Match.player_one_id m = b ∧ Match.player_two_id m = a).

#[export] Instance between_dec a b m : Decision (between a b m).
Proof. unfold between. apply _. Defined.

(** The weight of the event that owns the match: the weight of the event
    whose id is the match's [event_id] (of the last such event, should the id
    repeat), and [1.0] for a match of none of the events. *)
Definition owning_event_weight (events : list (EventDay.t F)) (m : Match.t) : F :=
  from_option EventDay.weight f1_0
    (last (filter (λ e, EventDay.id e = Match.event_id m) events)).

(** The total weight exchanged between [a] and [b]: the weights of the events
    owning the matches between them, summed in the order of the matches. *)
Definition total_weight_exchanged (events : list (EventDay.t F)) (a b : UUID)
  (matches : list Match.t) : F :=
  foldl (λ acc m, acc ⊕ owning_event_weight events m) f0_0
    (filter (between a b) matches).

(** The share of [a] in a match against [b]: half the owning event's weight
    when the match is a draw between the two, the whole weight when [a] won
    it, nothing otherwise. *)
Definition side_share (events : list (EventDay.t F)) (a b : UUID) (m : Match.t)
  : option F :=
  if decide (between a b m) then
    if decide (Match.outcome m = DRAW) then Some (owning_event_weight events m ⊗ f0_5)
    else if decide (Match.winner_id m = Some a) then Some (owning_event_weight events m)
    else None
  else None.

(** The shares of [a] against [b] added up from [0.0] in the order of the
    matches. *)
Definition side_total (events : list (EventDay.t F)) (a b : UUID)
  (matches : list Match.t) : F :=
  foldl (λ acc m, from_option (λ x, acc ⊕ x) acc (side_share events a b m))
    f0_0 matches.

(** The winner of a decisive match is one of its two players. *)
Definition winner_plays (m : Match.t) : Prop :=
  Match.outcome m ≠ DRAW →
  Match.winner_id m = Some (Match.player_one_id m) ∨
  Match.winner_id m = Some (Match.player_two_id m).

#[export] Instance winner_plays_dec m : Decision (winner_plays m).
Proof. unfold winner_plays. apply _. Defined.

(** The players whose cells [build] reads for [m] are listed in [ids]: both
    players of a draw, winner and opponent of a decisive match won by one of
    its players, nobody otherwise. *)
Definition cells_listed (ids : list UUID) (m : Match.t) : Prop :=
  (Match.outcome m = DRAW ∨
   Match.winner_id m = Some (Match.player_one_id m) ∨
   Match.winner_id m = Some (Match.player_two_id m)) →
  Match.player_one_id m ∈ ids ∧ Match.player_two_id m ∈ ids.

#[export] Instance cells_listed_dec ids m : Decision (cells_listed ids m).
Proof. unfold cells_listed. apply _. Defined.

(** [p] is player one or player two of [m]. *)
Definition plays_in (p : UUID) (m : Match.t) : Prop :=
  p = Match.player_one_id m ∨ p = Match.player_two_id m.

#[export] Instance plays_in_dec p m : Decision (plays_in p m).
Proof. unfold plays_in. apply _. Defined.

(** The standing of [p] in the list [compute_season_standings] returns. *)
Definition standing_of (p : UUID) (standings : list (SeasonStanding.t F))
  : option (SeasonStanding.t F) :=
  head (filter (λ s, SeasonStanding.player_id s = p) standings).

(** Cells exist exactly for the pairs of listed players: the invariant of the
    match loop of [build]. *)
Definition rows_over (ids : list UUID) (rows : gmap UUID (gmap UUID F)) : Prop :=
  ∀ a b, is_Some (get_cell rows a b) ↔ a ∈ ids ∧ b ∈ ids.

(** The keys of a dict comprehension over [l], in iteration order. *)
Definition first_occurrences (l : list UUID) : list UUID :=
  foldl (λ acc k, if decide (k ∈ acc) then acc else acc ++ [k]) [] l.

(** What the match loop of [compute_season_standings] does to the standing
    kept under key [p]. *)
Definition tally (events : list (EventDay.t F)) (p : UUID)
  (s : SeasonStanding.t F) (matches : list Match.t) : SeasonStanding.t F :=
  foldl (λ s m, if decide (p = Match.player_one_id m ∨ p = Match.player_two_id m)
                then SeasonStanding.record_match s m (match_weight events m) else s)
        s matches.

(** A match that [record_match] counts: a draw, or a decisive match that
    names a winner. *)
Definition counted (m : Match.t) : Prop :=
  Match.outcome m = DRAW ∨ Match.winner_id m ≠ None.

#[export] Instance counted_dec m : Decision (counted m).
Proof. unfold counted. apply _. Defined.

(** What match [m] puts into the cell [rows[a][b]] for [a ≠ b]: half of its
    weight when it is a draw between [a] and [b], its weight when [a] won it
    against [b], nothing otherwise. *)
Definition earned (events : list (EventDay.t F)) (a b : UUID) (m : Match.t)
  : option F :=
  if decide (between a b m) then
    if decide (Match.outcome m = DRAW) then Some (match_weight events m ⊗ f0_5)
    else if decide (Match.winner_id m = Some a) then Some (match_weight events m)
    else None
  else None.

(** The cell [rows[a][b]] summed up over the matches in their order. *)
Definition points_earned (events : list (EventDay.t F)) (a b : UUID)
  (matches : list Match.t) : F :=
  foldl (λ acc m, from_option (λ x, acc ⊕ x) acc (earned events a b m)) f0_0 matches.

(** The matches [compute_season_matrix] and [compute_season_standings] read
    for a season. *)
Definition season_matches (self : LocalLeagueRepository.db F) (season_id : UUID)
  : list Match.t :=
  LocalLeagueRepository.list_matches_for_events self
    (EventDay.id <$> LocalLeagueRepository.list_events self season_id).

(** The constraints of [initialize_schema]: primary keys do not repeat and
    every foreign key names a row of its parent table. *)
Record schema_ok (self : LocalLeagueRepository.db F) : Prop := {
  players_pk : NoDup (Player.id <$> LocalLeagueRepository.players self);
  seasons_pk : NoDup (Season.id <$> LocalLeagueRepository.seasons self);
  participants_pk :
    NoDup ((λ p, (SeasonParticipant.season_id p, SeasonParticipant.player_id p))
             <$> LocalLeagueRepository.season_participants self);
  events_pk : NoDup (EventDay.id <$> LocalLeagueRepository.events self);
  matches_pk : NoDup (Match.id <$> LocalLeagueRepository.matches self);
  participants_fk : ∀ p, p ∈ LocalLeagueRepository.season_participants self →
    SeasonParticipant.season_id p ∈ Season.id <$> LocalLeagueRepository.seasons self ∧
    SeasonParticipant.player_id p ∈ Player.id <$> LocalLeagueRepository.players self;
  events_fk : ∀ e, e ∈ LocalLeagueRepository.events self →
    EventDay.season_id e ∈ Season.id <$> LocalLeagueRepository.seasons self;
  matches_fk : ∀ m, m ∈ LocalLeagueRepository.matches self →
    Match.event_id m ∈ EventDay.id <$> LocalLeagueRepository.events self ∧
    Match.player_one_id m ∈ Player.id <$> LocalLeagueRepository.players self ∧
    Match.player_two_id m ∈ Player.id <$> LocalLeagueRepository.players self ∧
    nullable_reference (Match.winner_id m)
      (Player.id <$> LocalLeagueRepository.players self);
}.

(** Every stored season ends on or after the day it starts. *)
Definition ranges_ok (self : LocalLeagueRepository.db F) : Prop :=
  ∀ s, s ∈ LocalLeagueRepository.seasons self → Season.starts_on s ≤ Season.ends_on s.

(** The dates an update request results in: those of the payload where given,
    else those of the stored season. *)
Definition effective_starts_on (existing : Season.t) (payload : SeasonUpdate.t) : date :=
  default (Season.starts_on existing) (SeasonUpdate.starts_on payload).

Definition effective_ends_on (existing : Season.t) (payload : SeasonUpdate.t) : date :=
  default (Season.ends_on existing) (SeasonUpdate.ends_on payload).

(** The request was refused with status 422. *)
Definition rejected_422 {A : Type} (reply : Reply A) : Prop :=
  ∃ detail, reply = HTTPException HTTP_422_UNPROCESSABLE_ENTITY detail.
End vocabulary.

(** ** A sample league *)

Section sample.
Context `{FloatOps F}.

Definition sample_player (id : UUID) (display_name : string) : Player.t :=
  Player.mk id display_name 0 true None.

Definition sample_event (id season_id : UUID) (held_on : date) (weight : F)
  : EventDay.t F :=
  EventDay.mk F id season_id "day" held_on weight 0 None.

Definition sample_match (id event_id player_one_id player_two_id : UUID)
  (outcome : MatchOutcome) (winner_id : option UUID) : Match.t :=
  Match.mk id event_id player_one_id player_two_id outcome winner_id 0 None.

(** Season 9 with players 1, 2, 3, a doubled event 5 and a plain event 6;
    season 8 with event 7.  Player 4 plays in season 9 without being one of
    its participants. *)
Definition sample_matches : list Match.t :=
  [ sample_match 11 5 1 2 DRAW None;
    sample_match 12 5 2 1 PLAYER_ONE_WIN (Some 2%N);
    sample_match 13 6 1 3 PLAYER_ONE_WIN (Some 1%N);
    sample_match 14 7 1 2 PLAYER_TWO_WIN (Some 2%N) ].

Definition sample_events : list (EventDay.t F) :=
  [ sample_event 6 9 20 f1_0;
    sample_event 5 9 10 (f1_0 ⊕ f1_0);
    sample_event 7 8 15 f1_0 ].

Definition sample_db : LocalLeagueRepository.db F :=
  LocalLeagueRepository.mk
    [ sample_player 1 "ichi"; sample_player 2 "ni"; sample_player 3 "san";
      sample_player 4 "yon" ]
    [ Season.mk 8 "spring" 100 130 0 None; Season.mk 9 "summer" 200 230 0 None ]
    [ SeasonParticipant.mk 9 1 (Some 2) None;
      SeasonParticipant.mk 9 2 None None;
      SeasonParticipant.mk 8 1 None None;
      SeasonParticipant.mk 9 3 (Some 1) (Some "three"%string) ]
    sample_events
    sample_matches.

(** The same store with one more match of season 9, against player 4. *)
Definition sample_db_outsider : LocalLeagueRepository.db F :=
  LocalLeagueRepository.mk
    (LocalLeagueRepository.players sample_db)
    (LocalLeagueRepository.seasons sample_db)
    (LocalLeagueRepository.season_participants sample_db)
    (LocalLeagueRepository.events sample_db)
    (sample_matches ++ [sample_match 15 5 2 4 DRAW None]).
End sample.

(** Two events weighing [0.1] and [0.2] as binary64, a draw in the first and
    a win of player 1 in the second, both between players 1 and 2. *)
Definition rounding_events : list (EventDay.t binary64) :=
  [ sample_event 1 9 10 (S754_finite false 7205759403792794 (-56));
    sample_event 2 9 20 (S754_finite false 7205759403792794 (-55)) ].

Definition rounding_matches : list Match.t :=
  [ sample_match 21 1 1 2 DRAW None;
    sample_match 22 2 1 2 PLAYER_ONE_WIN (Some 1%N) ].

(** * Properties *)

(** ** The rationals are exact, binary64 is not *)

Lemma Qc_half_half (x : Qc) : (x * Q2Qc (1 # 2) + x * Q2Qc (1 # 2))%Qc = x.
Proof.
  rewrite <- Qcmult_plus_distr_r.
  replace (Q2Qc (1 # 2) + Q2Qc (1 # 2))%Qc with (Q2Qc 1).
  - apply Qcmult_1_r.
  - apply Qc_is_canon. reflexivity.
Qed.

#[export] Instance Qc_exact : ExactArith Qc.
Proof.
  split; simpl.
  - apply Qcplus_assoc.
  - apply Qcplus_comm.
  - apply Qcplus_0_r.
  - apply Qc_half_half.
Qed.

(** Binary64 rounds: already [-0.0 + 0.0] is not [-0.0]. *)
Lemma binary64_not_exact : ¬ ExactArith binary64.
Proof.
  intros Hexact. pose proof (fadd_0_r (S754_zero true : binary64)) as Hzero.
  vm_compute in Hzero. discriminate.
Qed.

(** ** Dict comprehensions *)

Section dict_facts.
Context {K : Type} `{!EqDecision K, !Countable K} {V : Type}.

Lemma foldl_insert_lookup (v : K → V) (l : list K) (d : gmap K V) (k : K) :
  foldl (λ d kv, <[kv.1 := kv.2]> d) d ((λ x, (x, v x)) <$> l) !! k
  = if decide (k ∈ l) then Some (v k) else d !! k.
Proof.
  revert d. induction l as [|x l IH]; intros d.
  - by case_decide; [set_solver |].
  - cbn [fmap list_fmap foldl fst snd]. rewrite IH.
    destruct (decide (k ∈ l)) as [Hin|Hin].
    + rewrite decide_True; [done | by right].
    + destruct (decide (x = k)) as [->|Hne].
      * rewrite lookup_insert_eq, decide_True; [done | by left].
      * rewrite lookup_insert_ne by done.
        rewrite decide_False; [done | rewrite elem_of_cons; intros [?|?]; done].
Qed.

Lemma dict_comp_lookup (v : K → V) (l : list K) (k : K) :
  dict_comp ((λ x, (x, v x)) <$> l) !! k = if decide (k ∈ l) then Some (v k) else None.
Proof. unfold dict_comp. rewrite foldl_insert_lookup. by rewrite lookup_empty. Qed.

Lemma foldl_insert_other (kvs : list (K * V)) (d : gmap K V) (k : K) :
  k ∉ kvs.*1 → foldl (λ d kv, <[kv.1 := kv.2]> d) d kvs !! k = d !! k.
Proof.
  revert d. induction kvs as [|[k' v'] kvs IH]; intros d Hk; [done|].
  cbn [fmap list_fmap fst] in Hk. rewrite not_elem_of_cons in Hk.
  destruct Hk as [Hne Hk]. cbn [foldl fst snd].
  rewrite IH by done. by rewrite lookup_insert_ne.
Qed.

Lemma foldl_insert_unique (kvs : list (K * V)) (d : gmap K V) (k : K) (v : V) :
  NoDup kvs.*1 → (k, v) ∈ kvs →
  foldl (λ d kv, <[kv.1 := kv.2]> d) d kvs !! k = Some v.
Proof.
  revert d. induction kvs as [|[k' v'] kvs IH]; intros d Hnd Hin.
  - by apply elem_of_nil in Hin.
  - cbn [fmap list_fmap fst] in Hnd. apply NoDup_cons in Hnd as [Hfresh Hnd].
    cbn [foldl fst snd]. apply elem_of_cons in Hin as [[= <- <-]|Hin].
    + rewrite foldl_insert_other by done. apply lookup_insert_eq.
    + by apply IH.
Qed.

Lemma dict_comp_lookup_last {A : Type} (key : A → K) (val : A → V) (l : list A)
  (k : K) :
  dict_comp ((λ x, (key x, val x)) <$> l) !! k
  = val <$> last (filter (λ x, key x = k) l).
Proof.
  unfold dict_comp. induction l as [|x l IH] using rev_ind; [done|].
  rewrite fmap_app, foldl_app, filter_app. cbn [fmap list_fmap foldl fst snd].
  rewrite filter_cons, filter_nil. destruct (decide (key x = k)) as [<-|Hne].
  - by rewrite lookup_insert_eq, last_snoc.
  - rewrite lookup_insert_ne by done. by rewrite app_nil_r.
Qed.
End dict_facts.

(** ** The head-to-head matrix *)

Section matrix_facts.
Context `{FloatOps F}.
Implicit Types (rows : gmap UUID (gmap UUID F)) (ids : list UUID) (m : Match.t).

(** With event ids that do not repeat (they are the primary key of [events])
    the weight of a match is the weight of the event that owns it. *)
Lemma match_weight_owning_event (events : list (EventDay.t F)) m
  (event : EventDay.t F) :
  NoDup (EventDay.id <$> events) → event ∈ events →
  EventDay.id event = Match.event_id m →
  match_weight events m = EventDay.weight event.
Proof.
  intros Hnd Hin Hid. unfold match_weight, SeasonMatrix.event_weights, dict_comp.
  rewrite (foldl_insert_unique _ ∅ (Match.event_id m) (EventDay.weight event)).
  - done.
  - by rewrite <- list_fmap_compose.
  - rewrite <- Hid. apply list_elem_of_fmap. by exists event.
Qed.

(** The weight the code looks up is the weight of the owning event. *)
Lemma match_weight_is_owning (events : list (EventDay.t F)) m :
  match_weight events m = owning_event_weight events m.
Proof.
  unfold match_weight, owning_event_weight, SeasonMatrix.event_weights.
  rewrite (dict_comp_lookup_last EventDay.id EventDay.weight events).
  by destruct (last _).
Qed.

Lemma get_cell_zero_rows ids a b :
  get_cell (SeasonMatrix.zero_rows ids) a b
  = if decide (a ∈ ids ∧ b ∈ ids) then Some f0_0 else None.
Proof.
  unfold get_cell, SeasonMatrix.zero_rows.
  rewrite (dict_comp_lookup
    (λ _, dict_comp ((λ opponent_id, (opponent_id, f0_0)) <$> ids)) ids a).
  destruct (decide (a ∈ ids)) as [Ha|Ha]; simpl.
  - rewrite (dict_comp_lookup (λ _, f0_0) ids b).
    destruct (decide (b ∈ ids)).
    + by rewrite decide_True.
    + rewrite decide_False; [done | tauto].
  - rewrite decide_False; [done | tauto].
Qed.

Lemma add_cell_is_Some rows a b w :
  is_Some (SeasonMatrix.add_cell rows a b w) ↔ is_Some (get_cell rows a b).
Proof.
  unfold SeasonMatrix.add_cell, get_cell.
  destruct (rows !! a) as [row|]; simpl; [|done].
  destruct (row !! b); simpl; [|done].
  split; eauto.
Qed.

Lemma add_cell_get rows rows' a b w x y :
  SeasonMatrix.add_cell rows a b w = Some rows' →
  get_cell rows' x y
  = if decide (x = a ∧ y = b) then (λ c, c ⊕ w) <$> get_cell rows x y
    else get_cell rows x y.
Proof.
  unfold SeasonMatrix.add_cell, get_cell. intros Hadd.
  destruct (rows !! a) as [row|] eqn:Hrow; simpl in Hadd; [|done].
  destruct (row !! b) as [cell|] eqn:Hcell; simpl in Hadd; [|done].
  injection Hadd as <-.
  destruct (decide (x = a)) as [->|Hxa].
  - rewrite lookup_insert_eq, Hrow. simpl.
    destruct (decide (y = b)) as [->|Hyb].
    + rewrite lookup_insert_eq, Hcell, decide_True; done.
    + rewrite lookup_insert_ne by done.
      rewrite decide_False; [done | tauto].
  - rewrite lookup_insert_ne by done.
    rewrite decide_False; [done | tauto].
Qed.

Lemma rows_over_zero_rows ids : rows_over ids (SeasonMatrix.zero_rows ids).
Proof.
  intros a b. rewrite get_cell_zero_rows.
  case_decide as Hin.
  - split; eauto.
  - split; [by intros [] | by intros ?].
Qed.

Lemma add_cell_rows_over ids rows rows' a b w :
  rows_over ids rows → SeasonMatrix.add_cell rows a b w = Some rows' →
  rows_over ids rows'.
Proof.
  intros Hover Hadd x y. rewrite (add_cell_get _ _ _ _ _ x y Hadd).
  case_decide; [rewrite fmap_is_Some|]; apply Hover.
Qed.

Lemma add_cell_listed ids rows a b w :
  rows_over ids rows →
  is_Some (SeasonMatrix.add_cell rows a b w) ↔ a ∈ ids ∧ b ∈ ids.
Proof. intros Hover. rewrite add_cell_is_Some. apply Hover. Qed.

Lemma add_match_listed ids weights rows m :
  rows_over ids rows →
  is_Some (SeasonMatrix.add_match weights rows m) ↔ cells_listed ids m.
Proof.
  intros Hover. unfold SeasonMatrix.add_match, cells_listed.
  destruct (decide (Match.outcome m = DRAW)) as [Hd|Hd].
  - split.
    + intros [rows' Hrows'] _.
      destruct (SeasonMatrix.add_cell rows _ _ _) as [rows1|] eqn:H1; [|done].
      apply (add_cell_listed ids rows _ _
        (default f1_0 (weights !! Match.event_id m) ⊗ f0_5) Hover). eauto.
    + intros Hin. destruct Hin as [H1 H2]; [by left|].
      destruct (proj2 (add_cell_listed ids rows (Match.player_one_id m)
        (Match.player_two_id m)
        (default f1_0 (weights !! Match.event_id m) ⊗ f0_5) Hover))
        as [rows1 Hrows1]; [done|].
      rewrite Hrows1. simpl.
      apply (add_cell_listed ids); [|done].
      by eapply add_cell_rows_over.
  - destruct (decide (Match.winner_id m = Some (Match.player_one_id m))) as [H1|H1].
    + rewrite (add_cell_listed ids) by done. tauto.
    + destruct (decide (Match.winner_id m = Some (Match.player_two_id m))) as [H2|H2].
      * rewrite (add_cell_listed ids) by done. tauto.
      * split; [tauto | eauto].
Qed.

Lemma add_match_rows_over ids weights rows rows' m :
  rows_over ids rows → SeasonMatrix.add_match weights rows m = Some rows' →
  rows_over ids rows'.
Proof.
  intros Hover. unfold SeasonMatrix.add_match.
  repeat case_decide.
  - destruct (SeasonMatrix.add_cell rows _ _ _) as [rows1|] eqn:H1; [|done].
    simpl. intros H2. eapply add_cell_rows_over; [|exact H2].
    by eapply add_cell_rows_over.
  - by apply add_cell_rows_over.
  - by apply add_cell_rows_over.
  - by intros [= <-].
Qed.

Lemma add_matches_listed ids weights rows matches :
  rows_over ids rows →
  is_Some (SeasonMatrix.add_matches weights rows matches)
  ↔ Forall (cells_listed ids) matches.
Proof.
  revert rows. induction matches as [|m matches IH]; intros rows Hover; simpl.
  - split; eauto.
  - rewrite Forall_cons, <- (add_match_listed ids weights rows m Hover).
    destruct (SeasonMatrix.add_match weights rows m) as [rows1|] eqn:H1; simpl.
    + rewrite IH by (by eapply add_match_rows_over).
      split; [intros ?; split; eauto | tauto].
    + split; [by intros [] | by intros [[] _]].
Qed.
End matrix_facts.

Section matrix_claims.
Context `{FloatOps F}.
Implicit Types (rows : gmap UUID (gmap UUID F)) (ids : list UUID) (m : Match.t).

(** C8. [build] keeps the caller's player ids as [player_order], in the same
    order and multiplicity; the table the match loop starts from holds [0.0]
    at every ordered pair of listed players; with no match the matrix
    returned is that table, so each of its cells is [0.0]. *)
Theorem build_player_order_and_zero_cells (season_id : UUID) ids
  (events : list (EventDay.t F)) :
  (∀ matches mx, SeasonMatrix.build season_id ids events matches = Some mx →
     SeasonMatrix.player_order mx = ids ∧
     SeasonMatrix.add_matches (SeasonMatrix.event_weights events)
       (SeasonMatrix.zero_rows ids) matches = Some (SeasonMatrix.rows mx)) ∧
  (∀ a b, a ∈ ids → b ∈ ids →
     get_cell (SeasonMatrix.zero_rows ids) a b = Some f0_0) ∧
  (∃ mx, SeasonMatrix.build season_id ids events [] = Some mx ∧
     SeasonMatrix.player_order mx = ids ∧
     ∀ a b, a ∈ ids → b ∈ ids → get_cell (SeasonMatrix.rows mx) a b = Some f0_0).
Proof.
  assert (Hzero : ∀ a b, a ∈ ids → b ∈ ids →
            get_cell (SeasonMatrix.zero_rows (F:=F) ids) a b = Some f0_0).
  { intros a b Ha Hb. rewrite get_cell_zero_rows. by rewrite decide_True. }
  split; [|split].
  - intros matches mx. unfold SeasonMatrix.build.
    destruct (SeasonMatrix.add_matches _ _ matches) as [rows'|]; simpl; [|done].
    by intros [= <-].
  - exact Hzero.
  - eexists. split; [reflexivity|]. split; [reflexivity|]. exact Hzero.
Qed.

(** C10. [build] returns a matrix exactly when every match has its cells
    listed: both players of a draw, and winner and opponent of a decisive
    match won by one of its players, are among the caller's player ids.  A
    match that fails this makes a subscript of [rows] raise [KeyError]. *)
Theorem build_completes_iff_cells_listed (season_id : UUID) ids
  (events : list (EventDay.t F)) (matches : list Match.t) :
  is_Some (SeasonMatrix.build season_id ids events matches)
  ↔ Forall (cells_listed ids) matches.
Proof.
  rewrite <- (add_matches_listed ids (SeasonMatrix.event_weights events)
                (SeasonMatrix.zero_rows ids) matches (rows_over_zero_rows ids)).
  unfold SeasonMatrix.build.
  destruct (SeasonMatrix.add_matches _ _ matches); simpl; [|done].
  split; intros _; eauto.
Qed.
End matrix_claims.

(** Sums that regroup: only for arithmetic without rounding. *)
Section exact_matrix.
Context `{ExactArith F}.
Implicit Types (rows : gmap UUID (gmap UUID F)) (ids : list UUID) (m : Match.t).

Lemma fadd_0_0 : f0_0 ⊕ f0_0 = (f0_0 : F).
Proof. apply fadd_0_r. Qed.

Lemma fadd_shuffle (x y h k : F) : (x ⊕ h) ⊕ (y ⊕ k) = (x ⊕ y) ⊕ (h ⊕ k).
Proof.
  rewrite (fadd_assoc (x ⊕ h) y k), <- (fadd_assoc x h y), (fadd_comm h y).
  rewrite (fadd_assoc x y h), <- (fadd_assoc (x ⊕ y) h k). done.
Qed.

Lemma fadd_right_left (x y w : F) : (x ⊕ w) ⊕ y = (x ⊕ y) ⊕ w.
Proof. rewrite <- (fadd_assoc x w y), (fadd_comm w y). apply fadd_assoc. Qed.

Lemma add_match_pair weights rows rows' m a b x y :
  SeasonMatrix.add_match weights rows m = Some rows' →
  a ≠ b → winner_plays m →
  get_cell rows a b = Some x → get_cell rows b a = Some y →
  ∃ x' y', get_cell rows' a b = Some x' ∧ get_cell rows' b a = Some y' ∧
    x' ⊕ y' = if decide (between a b m)
               then (x ⊕ y) ⊕ default f1_0 (weights !! Match.event_id m)
               else x ⊕ y.
Proof.
  unfold SeasonMatrix.add_match, winner_plays, between.
  intros Hadd Hab Hwin Hx Hy.
  destruct (decide (Match.outcome m = DRAW)) as [Hd|Hd].
  - destruct (SeasonMatrix.add_cell rows _ _ _) as [rows1|] eqn:H1; [|done].
    simpl in Hadd.
    rewrite !(add_cell_get _ _ _ _ _ _ _ Hadd), !(add_cell_get _ _ _ _ _ _ _ H1), Hx, Hy.
    clear Hadd H1 Hx Hy Hwin.
    repeat case_decide; simpl; eexists _, _; (split; [reflexivity|]); (split; [reflexivity|]).
    all: first [ done | by rewrite fadd_shuffle, fmul_half_half
               | exfalso; destruct_and?; destruct_or?; destruct_and?; simplify_eq; tauto ].
  - assert (Hcase :
      (Match.winner_id m = Some (Match.player_one_id m) ∧
       SeasonMatrix.add_cell rows (Match.player_one_id m) (Match.player_two_id m)
         (default f1_0 (weights !! Match.event_id m)) = Some rows') ∨
      (SeasonMatrix.add_cell rows (Match.player_two_id m) (Match.player_one_id m)
         (default f1_0 (weights !! Match.event_id m)) = Some rows')).
    { destruct (decide (Match.winner_id m = Some (Match.player_one_id m))); [by left|].
      right. destruct (Hwin Hd); [done|]. by rewrite decide_True in Hadd. }
    clear Hadd Hwin.
    destruct Hcase as [[_ Hadd]|Hadd];
      rewrite !(add_cell_get _ _ _ _ _ _ _ Hadd), Hx, Hy; clear Hadd Hx Hy;
      repeat case_decide; simpl; eexists _, _;
      (split; [reflexivity|]); (split; [reflexivity|]);
      first [ done | by rewrite fadd_right_left | by rewrite fadd_assoc
            | exfalso; destruct_and?; destruct_or?; destruct_and?; simplify_eq; tauto ].
Qed.

Lemma add_matches_pair weights rows rows' (matches : list Match.t) a b x y :
  SeasonMatrix.add_matches weights rows matches = Some rows' →
  a ≠ b → Forall winner_plays matches →
  get_cell rows a b = Some x → get_cell rows b a = Some y →
  ∃ x' y', get_cell rows' a b = Some x' ∧ get_cell rows' b a = Some y' ∧
    x' ⊕ y' = foldl (λ acc m, acc ⊕ default f1_0 (weights !! Match.event_id m))
                 (x ⊕ y) (filter (between a b) matches).
Proof.
  intros Hadd Hab Hwin. revert rows x y Hadd.
  induction Hwin as [|m matches Hm Hwin IH]; intros rows x y Hadd Hx Hy; simpl in Hadd.
  - injection Hadd as <-. eauto.
  - destruct (SeasonMatrix.add_match weights rows m) as [rows1|] eqn:H1; [|done].
    simpl in Hadd.
    destruct (add_match_pair _ _ _ _ a b x y H1 Hab Hm Hx Hy) as (x1 & y1 & Hx1 & Hy1 & Hsum).
    destruct (IH rows1 x1 y1 Hadd Hx1 Hy1) as (x' & y' & Hx' & Hy' & Hsum').
    exists x', y'. split; [done|]. split; [done|].
    rewrite Hsum', Hsum, filter_cons. by case_decide.
Qed.

Lemma foldl_match_weight_owning (events : list (EventDay.t F))
  (matches : list Match.t) (acc : F) :
  foldl (λ acc m, acc ⊕ default f1_0
                          (SeasonMatrix.event_weights events !! Match.event_id m))
    acc matches
  = foldl (λ acc m, acc ⊕ owning_event_weight events m) acc matches.
Proof.
  revert acc. induction matches as [|m matches IH]; intros acc; [done|].
  cbn [foldl]. rewrite IH. do 2 f_equal. apply match_weight_is_owning.
Qed.

(** Where no addition rounds, the cell [rows[a][b]] plus its transpose is the
    total weight exchanged between [a] and [b]; binary64 is no such
    arithmetic. *)
Lemma cell_plus_transpose_without_rounding (season_id : UUID) ids
  (events : list (EventDay.t F)) (matches : list Match.t)
  (mx : SeasonMatrix.t F) (a b : UUID) :
  SeasonMatrix.build season_id ids events matches = Some mx →
  a ∈ ids → b ∈ ids → a ≠ b →
  Forall winner_plays matches →
  ∃ x y, get_cell (SeasonMatrix.rows mx) a b = Some x ∧
         get_cell (SeasonMatrix.rows mx) b a = Some y ∧
         x ⊕ y = total_weight_exchanged events a b matches.
Proof.
  intros Hbuild Ha Hb Hab Hwin. unfold SeasonMatrix.build in Hbuild.
  destruct (SeasonMatrix.add_matches _ _ matches) as [rows'|] eqn:Hadd; [|done].
  injection Hbuild as <-. simpl.
  destruct (add_matches_pair _ _ _ _ a b f0_0 f0_0 Hadd Hab Hwin)
    as (x & y & Hx & Hy & Hsum).
  - rewrite get_cell_zero_rows. by rewrite decide_True.
  - rewrite get_cell_zero_rows. by rewrite decide_True.
  - exists x, y. split; [done|]. split; [done|].
    rewrite Hsum, fadd_0_0. apply foldl_match_weight_owning.
Qed.
End exact_matrix.

(** ** Standings *)

Section standing_claims.
Context `{FloatOps F}.
Implicit Types (self s : SeasonStanding.t F) (m : Match.t) (w : F).

(** C9. On a draw [points_for_player] returns [0.5 * weight] for every
    player id, whether or not it is one of the two players of the match. *)
Theorem points_for_player_draw m (player_id : UUID) (weight : F) :
  Match.outcome m = DRAW →
  Match.points_for_player m player_id weight = f0_5 ⊗ weight.
Proof. intros Hd. unfold Match.points_for_player. by rewrite decide_True. Qed.

Lemma record_match_player_id self m w :
  SeasonStanding.player_id (SeasonStanding.record_match self m w)
  = SeasonStanding.player_id self.
Proof. unfold SeasonStanding.record_match. by repeat case_decide. Qed.

Lemma record_in_all_lookup (standings : list (UUID * SeasonStanding.t F)) m w
  (i : nat) (pid : UUID) s :
  standings !! i = Some (pid, s) →
  LocalLeagueRepository.record_in_all standings m w !! i
  = Some (pid, if decide (plays_in pid m)
               then SeasonStanding.record_match s m w else s).
Proof.
  intros Hi. unfold LocalLeagueRepository.record_in_all, plays_in.
  rewrite list_lookup_fmap, Hi. simpl. by repeat case_decide.
Qed.

(** C2. Recording a drawn match adds one to the draw count and
    [event_weight * 0.5] to the weighted points of the standing and leaves its
    wins and losses as they were; in the loop of [compute_season_standings]
    this happens to the standing of player one and to that of player two. *)
Theorem record_match_draw m w :
  Match.outcome m = DRAW →
  (∀ self,
     SeasonStanding.record_match self m w
     = SeasonStanding.mk F (SeasonStanding.season_id self)
         (SeasonStanding.player_id self) (SeasonStanding.wins self)
         (SeasonStanding.losses self) (SeasonStanding.draws self + 1)
         (SeasonStanding.weighted_points self ⊕ w ⊗ f0_5)) ∧
  (∀ (standings : list (UUID * SeasonStanding.t F)) (i : nat) (pid : UUID) s,
     standings !! i = Some (pid, s) →
     pid = Match.player_one_id m ∨ pid = Match.player_two_id m →
     ∃ s', LocalLeagueRepository.record_in_all standings m w !! i = Some (pid, s') ∧
       SeasonStanding.draws s' = SeasonStanding.draws s + 1 ∧
       SeasonStanding.weighted_points s'
       = SeasonStanding.weighted_points s ⊕ w ⊗ f0_5 ∧
       SeasonStanding.wins s' = SeasonStanding.wins s ∧
       SeasonStanding.losses s' = SeasonStanding.losses s).
Proof.
  intros Hd.
  assert (Hrec : ∀ self,
     SeasonStanding.record_match self m w
     = SeasonStanding.mk F (SeasonStanding.season_id self)
         (SeasonStanding.player_id self) (SeasonStanding.wins self)
         (SeasonStanding.losses self) (SeasonStanding.draws self + 1)
         (SeasonStanding.weighted_points self ⊕ w ⊗ f0_5)).
  { intros self. unfold SeasonStanding.record_match. by rewrite decide_True. }
  split; [exact Hrec|].
  intros standings i pid s Hi Hplays.
  rewrite (record_in_all_lookup _ _ _ _ _ _ Hi), decide_True by done.
  eexists. split; [reflexivity|]. by rewrite Hrec.
Qed.

(** C3. For a decisive match won by one of its two players, recording it in
    the winner's standing adds the event weight to the weighted points and
    one to the wins; recording it in the standing of the player who is not the
    winner adds one to the losses and leaves the weighted points as they
    were.  The loop of [compute_season_standings] records the match in the
    standings of both players. *)
Theorem record_match_decisive m w :
  Match.outcome m ≠ DRAW →
  Match.winner_id m = Some (Match.player_one_id m) ∨
  Match.winner_id m = Some (Match.player_two_id m) →
  (∀ self, Match.winner_id m = Some (SeasonStanding.player_id self) →
     SeasonStanding.record_match self m w
     = SeasonStanding.mk F (SeasonStanding.season_id self)
         (SeasonStanding.player_id self) (SeasonStanding.wins self + 1)
         (SeasonStanding.losses self) (SeasonStanding.draws self)
         (SeasonStanding.weighted_points self ⊕ w)) ∧
  (∀ self, plays_in (SeasonStanding.player_id self) m →
     Match.winner_id m ≠ Some (SeasonStanding.player_id self) →
     SeasonStanding.record_match self m w
     = SeasonStanding.mk F (SeasonStanding.season_id self)
         (SeasonStanding.player_id self) (SeasonStanding.wins self)
         (SeasonStanding.losses self + 1) (SeasonStanding.draws self)
         (SeasonStanding.weighted_points self)) ∧
  (∀ (standings : list (UUID * SeasonStanding.t F)) (i : nat) (pid : UUID) s,
     standings !! i = Some (pid, s) → plays_in pid m →
     LocalLeagueRepository.record_in_all standings m w !! i
     = Some (pid, SeasonStanding.record_match s m w)).
Proof.
  intros Hd Hwin. split; [|split].
  - intros self Hself. unfold SeasonStanding.record_match.
    by rewrite decide_False, decide_True.
  - intros self _ Hself. unfold SeasonStanding.record_match.
    rewrite decide_False, decide_False, decide_True; [done | | done | done].
    destruct Hwin as [-> | ->]; done.
  - intros standings i pid s Hi Hplays.
    by rewrite (record_in_all_lookup _ _ _ _ _ _ Hi), decide_True.
Qed.
End standing_claims.

Section odict_facts.
Context {V : Type} (v : UUID → V).

Lemma odict_set_fmap (k : UUID) (acc : list UUID) :
  odict_set k (v k) ((λ x, (x, v x)) <$> acc)
  = (λ x, (x, v x)) <$> (if decide (k ∈ acc) then acc else acc ++ [k]).
Proof.
  induction acc as [|x acc IH].
  - rewrite decide_False; [done | apply not_elem_of_nil].
  - cbn [fmap list_fmap odict_set]. destruct (decide (x = k)) as [->|Hne].
    + rewrite decide_True; [done | by left].
    + rewrite IH. destruct (decide (k ∈ acc)) as [Hin|Hin].
      * rewrite decide_True; [done | by right].
      * rewrite decide_False; [done|].
        rewrite elem_of_cons. intros [->|?]; done.
Qed.

Lemma foldl_odict_set_fmap (l acc : list UUID) :
  foldl (λ d kv, odict_set kv.1 kv.2 d) ((λ x, (x, v x)) <$> acc)
        ((λ x, (x, v x)) <$> l)
  = (λ x, (x, v x)) <$>
      foldl (λ acc k, if decide (k ∈ acc) then acc else acc ++ [k]) acc l.
Proof.
  revert acc. induction l as [|k l IH]; intros acc; [done|].
  cbn [fmap list_fmap foldl fst snd]. rewrite odict_set_fmap. apply IH.
Qed.

Lemma odict_comp_fmap (l : list UUID) :
  odict_comp ((λ x, (x, v x)) <$> l) = (λ x, (x, v x)) <$> first_occurrences l.
Proof. apply (foldl_odict_set_fmap l []). Qed.
End odict_facts.

Lemma elem_of_foldl_first (l acc : list UUID) (k : UUID) :
  k ∈ foldl (λ acc k, if decide (k ∈ acc) then acc else acc ++ [k]) acc l
  ↔ k ∈ acc ∨ k ∈ l.
Proof.
  revert acc. induction l as [|x l IH]; intros acc; simpl.
  - rewrite elem_of_nil. tauto.
  - rewrite IH, elem_of_cons. destruct (decide (x ∈ acc)) as [Hin|Hin].
    + split; [tauto|]. intros [?|[->|?]]; tauto.
    + rewrite elem_of_app, list_elem_of_singleton. tauto.
Qed.

Lemma elem_of_first_occurrences (l : list UUID) (k : UUID) :
  k ∈ first_occurrences l ↔ k ∈ l.
Proof.
  unfold first_occurrences. rewrite elem_of_foldl_first, elem_of_nil. tauto.
Qed.

Section standings_facts.
Context `{FloatOps F}.
Implicit Types (s : SeasonStanding.t F) (m : Match.t).

Lemma foldl_record_in_all (events : list (EventDay.t F)) (matches : list Match.t)
  (standings : list (UUID * SeasonStanding.t F)) :
  foldl (λ standings m,
           LocalLeagueRepository.record_in_all standings m (match_weight events m))
        standings matches
  = (λ item, (item.1, tally events item.1 item.2 matches)) <$> standings.
Proof.
  revert standings. induction matches as [|m matches IH]; intros standings; simpl.
  - induction standings as [|[k s] standings IHs]; [done|].
    cbn. by f_equal.
  - rewrite IH. unfold LocalLeagueRepository.record_in_all.
    rewrite <- list_fmap_compose. done.
Qed.

Lemma tally_player_id events (p : UUID) s (matches : list Match.t) :
  SeasonStanding.player_id (tally events p s matches) = SeasonStanding.player_id s.
Proof.
  revert s. induction matches as [|m matches IH]; intros s; [done|].
  unfold tally in *. simpl. rewrite IH.
  case_decide; [apply record_match_player_id | done].
Qed.

Lemma tally_filter events (p : UUID) s (matches : list Match.t) :
  tally events p s matches
  = foldl (λ s m, SeasonStanding.record_match s m (match_weight events m))
      s (filter (plays_in p) matches).
Proof.
  revert s. induction matches as [|m matches IH]; intros s; [done|].
  unfold tally in *. rewrite filter_cons. simpl. unfold plays_in at 1.
  case_decide; simpl; apply IH.
Qed.

Lemma standing_of_fmap (f : UUID → SeasonStanding.t F) (keys : list UUID) (p : UUID) :
  (∀ k, SeasonStanding.player_id (f k) = k) →
  standing_of p (f <$> keys) = if decide (p ∈ keys) then Some (f p) else None.
Proof.
  intros Hf. unfold standing_of.
  induction keys as [|k keys IH].
  - rewrite decide_False; [done | apply not_elem_of_nil].
  - cbn [fmap list_fmap]. rewrite filter_cons. rewrite Hf. destruct (decide (k = p)) as [->|Hne]; simpl.
    + rewrite decide_True; [done | by left].
    + rewrite IH. destruct (decide (p ∈ keys)) as [Hin|Hin].
      * rewrite decide_True; [done | by right].
      * rewrite decide_False; [done|].
        rewrite elem_of_cons. intros [->|?]; done.
Qed.
End standings_facts.

Section standings_claims.
Context `{FloatOps F}.

(** C4. In [compute_season_standings] the standing of a participant [p] is
    the fresh standing with only the matches that list [p] as player one or
    player two recorded in it, in order; players that are no participants of
    the season have no standing.  Matches between other players do not reach
    the wins, losses, draws or weighted points of [p]. *)
Theorem standing_counts_own_matches_only (self : LocalLeagueRepository.db F)
  (season_id p : UUID) :
  let events := LocalLeagueRepository.list_events self season_id in
  let matches :=
    LocalLeagueRepository.list_matches_for_events self (EventDay.id <$> events) in
  let participants := LocalLeagueRepository.list_season_participants self season_id in
  standing_of p (LocalLeagueRepository.compute_season_standings self season_id)
  = if decide (p ∈ SeasonParticipant.player_id <$> participants)
    then Some (foldl (λ s m, SeasonStanding.record_match s m (match_weight events m))
                 (SeasonStanding.new season_id p) (filter (plays_in p) matches))
    else None.
Proof.
  intros events matches participants.
  unfold LocalLeagueRepository.compute_season_standings.
  fold events. fold matches. fold participants.
  assert (Hst :
    (λ participant, (SeasonParticipant.player_id participant,
       SeasonStanding.new (F:=F) season_id (SeasonParticipant.player_id participant)))
      <$> participants
    = (λ k, (k, SeasonStanding.new season_id k))
        <$> (SeasonParticipant.player_id <$> participants)).
  { by rewrite <- list_fmap_compose. }
  rewrite Hst. clear Hst.
  rewrite (odict_comp_fmap (λ k, SeasonStanding.new (F:=F) season_id k)).
  pose proof (foldl_record_in_all events matches
    ((λ k, (k, SeasonStanding.new season_id k)) <$> first_occurrences
       (SeasonParticipant.player_id <$> participants))) as Hloop.
  unfold match_weight, SeasonMatrix.event_weights in Hloop.
  rewrite Hloop. clear Hloop.
  assert (Hvalues : ∀ keys : list UUID,
    ((λ item, (item.1, tally events item.1 item.2 matches)) <$>
       ((λ k, (k, SeasonStanding.new (F:=F) season_id k)) <$> keys)).*2
    = (λ k, tally events k (SeasonStanding.new season_id k) matches) <$> keys).
  { intros keys. by rewrite <- !list_fmap_compose. }
  rewrite Hvalues. clear Hvalues.
  rewrite (standing_of_fmap
    (λ k, tally events k (SeasonStanding.new season_id k) matches)).
  - destruct (decide (p ∈ first_occurrences _)) as [Hin|Hin];
      rewrite elem_of_first_occurrences in Hin.
    + rewrite decide_True by done. by rewrite tally_filter.
    + by rewrite decide_False.
  - intros k. by rewrite tally_player_id.
Qed.
End standings_claims.

(** ** The season store and its API *)

Lemma filter_none {A : Type} (P : A → Prop) `{!∀ x, Decision (P x)} (l : list A) :
  (∀ x, x ∈ l → ¬ P x) → filter P l = [].
Proof.
  induction l as [|x l IH]; intros Hl; [done|].
  rewrite filter_cons_False by (apply Hl; by left).
  apply IH. intros y Hy. apply Hl. by right.
Qed.

Section store_claims.
Context `{FloatOps F}.
Implicit Types (self : LocalLeagueRepository.db F) (season_id : UUID).

Lemma get_season_None self season_id :
  LocalLeagueRepository.get_season self season_id = None
  ↔ season_id ∉ Season.id <$> LocalLeagueRepository.seasons self.
Proof.
  unfold LocalLeagueRepository.get_season.
  rewrite head_None, list_elem_of_fmap. split.
  - intros Hnil (s & -> & Hs).
    assert (Hin : s ∈ filter (λ s', Season.id s' = Season.id s)
                      (LocalLeagueRepository.seasons self))
      by (by apply list_elem_of_filter).
    rewrite Hnil in Hin. by apply elem_of_nil in Hin.
  - intros Hnot. apply filter_none. intros s Hs Hid.
    apply Hnot. by exists s.
Qed.

Lemma get_season_Some self season_id season :
  LocalLeagueRepository.get_season self season_id = Some season →
  Season.id season = season_id ∧
  filter (λ s, Season.id s = season_id) (LocalLeagueRepository.seasons self) ≠ [].
Proof.
  unfold LocalLeagueRepository.get_season. intros Hhead.
  destruct (filter _ _) as [|s rest] eqn:Hf; [done|].
  injection Hhead as ->. split; [|done].
  assert (Hin : season ∈ filter (λ s, Season.id s = season_id)
                   (LocalLeagueRepository.seasons self))
    by (rewrite Hf; by left).
  by apply list_elem_of_filter in Hin as [? _].
Qed.

Lemma rowcount_0 self season_id :
  length (filter (λ s, Season.id s = season_id) (LocalLeagueRepository.seasons self)) = 0%nat
  ↔ season_id ∉ Season.id <$> LocalLeagueRepository.seasons self.
Proof.
  rewrite <- get_season_None. unfold LocalLeagueRepository.get_season.
  rewrite head_None. apply length_zero_iff_nil.
Qed.

(** C5. When [delete_season] reports a deleted row, the store it leaves has
    no season with that id, no event owned by the season, no participant of
    the season, and no match whose event was one of the season's events. *)
Theorem delete_season_cascades self season_id self' :
  LocalLeagueRepository.delete_season self season_id = (true, self') →
  (∀ s, s ∈ LocalLeagueRepository.seasons self' → Season.id s ≠ season_id) ∧
  (∀ e, e ∈ LocalLeagueRepository.events self' → EventDay.season_id e ≠ season_id) ∧
  (∀ p, p ∈ LocalLeagueRepository.season_participants self' →
        SeasonParticipant.season_id p ≠ season_id) ∧
  (∀ m e, m ∈ LocalLeagueRepository.matches self' →
          e ∈ LocalLeagueRepository.events self →
          EventDay.season_id e = season_id → Match.event_id m ≠ EventDay.id e).
Proof.
  unfold LocalLeagueRepository.delete_season. intros Hdel.
  injection Hdel as Hcount <-.
  apply bool_decide_eq_true in Hcount.
  rewrite decide_False by lia. simpl.
  split; [|split; [|split]].
  - intros s Hs. by apply list_elem_of_filter in Hs as [? _].
  - intros e He. by apply list_elem_of_filter in He as [? _].
  - intros p Hp. by apply list_elem_of_filter in Hp as [? _].
  - intros m e Hm He Hseason Hid.
    apply list_elem_of_filter in Hm as [Hgone _]. apply Hgone.
    rewrite Hid. apply list_elem_of_fmap. exists e. split; [done|].
    by apply list_elem_of_filter.
Qed.
End store_claims.

Section api_claims.
Context `{FloatOps F}.
Implicit Types (repository : LocalLeagueRepository.db F) (season_id : UUID).

Lemma validate_date_range_raises (starts_on ends_on : date) :
  Api._validate_date_range starts_on ends_on
  = if decide (ends_on < starts_on)
    then Some (HTTP_422_UNPROCESSABLE_ENTITY,
               "ends_on must be on or after starts_on"%string)
    else None.
Proof. reflexivity. Qed.

(** C6. A create request is refused with status 422 exactly when its
    [ends_on] is before its [starts_on], and the store is then unchanged;
    otherwise the range is accepted and a season that is stored is answered
    with status 201.  An update request for a stored season is refused with
    status 422 exactly when the effective [ends_on] (payload value, else the
    stored one) is before the effective [starts_on], the store then unchanged;
    otherwise it is accepted and answered with the effective dates. *)
Theorem season_date_range_checked :
  (∀ (payload : SeasonCreate.t) (uuid4 : UUID) (utcnow : datetime) repository,
     let reply := Api.create_season payload uuid4 utcnow repository in
     (rejected_422 reply.1
      ↔ SeasonCreate.ends_on payload < SeasonCreate.starts_on payload) ∧
     (SeasonCreate.ends_on payload < SeasonCreate.starts_on payload →
      reply.2 = repository) ∧
     (SeasonCreate.starts_on payload ≤ SeasonCreate.ends_on payload →
      uuid4 ∉ Season.id <$> LocalLeagueRepository.seasons repository →
      ∃ body, reply.1 = Returned HTTP_201_CREATED body ∧
        SeasonResponse.id body = uuid4 ∧
        SeasonResponse.starts_on body = SeasonCreate.starts_on payload ∧
        SeasonResponse.ends_on body = SeasonCreate.ends_on payload ∧
        LocalLeagueRepository.get_season reply.2 uuid4
        = Some (Season.mk uuid4 (SeasonCreate.title payload)
                  (SeasonCreate.starts_on payload) (SeasonCreate.ends_on payload)
                  (_iso_datetime utcnow) (SeasonCreate.description payload))) ∧
     (∀ status_code body, reply.1 = Returned status_code body →
      status_code = HTTP_201_CREATED)) ∧
  (∀ season_id (payload : SeasonUpdate.t) repository (existing : Season.t),
     LocalLeagueRepository.get_season repository season_id = Some existing →
     let reply := Api.update_season season_id payload repository in
     (rejected_422 reply.1
      ↔ effective_ends_on existing payload < effective_starts_on existing payload) ∧
     (effective_ends_on existing payload < effective_starts_on existing payload →
      reply.2 = repository) ∧
     (effective_starts_on existing payload ≤ effective_ends_on existing payload →
      ∃ body, reply.1 = Returned HTTP_200_OK body ∧
        SeasonResponse.starts_on body = effective_starts_on existing payload ∧
        SeasonResponse.ends_on body = effective_ends_on existing payload)).
Proof.
  split.
  - intros payload uuid4 utcnow repository reply. subst reply.
    unfold Api.create_season, rejected_422. rewrite validate_date_range_raises.
    destruct (decide (SeasonCreate.ends_on payload < SeasonCreate.starts_on payload))
      as [Hlt|Hge]; simpl.
    + split; [split; eauto|]. split; [done|]. split; [lia|]. intros; discriminate.
    + unfold LocalLeagueRepository.create_season, LocalLeagueRepository.add_season.
      simpl. split.
      { split; [|done]. intros [detail Hd].
        destruct (decide (uuid4 ∈ _)); simpl in Hd; discriminate. }
      split; [done|]. split.
      * intros _ Hfresh. rewrite decide_False by done. simpl.
        eexists. split; [reflexivity|]. repeat (split; [reflexivity|]).
        unfold LocalLeagueRepository.get_season. simpl.
        rewrite filter_app, filter_none.
        -- simpl. by rewrite filter_cons_True, filter_nil.
        -- intros s Hs Hid. apply Hfresh. apply list_elem_of_fmap. by exists s.
      * intros status_code body.
        destruct (decide (uuid4 ∈ _)); simpl; [discriminate|].
        by intros [= <- _].
  - intros season_id payload repository existing Hget reply. subst reply.
    unfold Api.update_season, rejected_422, effective_ends_on, effective_starts_on.
    rewrite Hget. simpl. rewrite validate_date_range_raises.
    destruct (decide (default (Season.ends_on existing) (SeasonUpdate.ends_on payload)
                      < default (Season.starts_on existing)
                          (SeasonUpdate.starts_on payload))) as [Hlt|Hge]; simpl.
    + split; [split; eauto|]. split; [done|]. lia.
    + apply get_season_Some in Hget as [Hid Hrows].
      unfold LocalLeagueRepository.update_season. simpl.
      rewrite decide_False
        by (rewrite Hid; intros Hz; by apply length_zero_iff_nil in Hz).
      simpl. split; [|split; [done|]].
      * split; [|done]. intros [detail Hd]. discriminate.
      * intros _. eexists. split; [reflexivity|]. done.
Qed.

(** C7. For a season id that is not stored, the get, update and delete
    handlers raise [HTTPException] with status 404 and leave the store as it
    was; for a stored id the delete handler returns with status 204 and the
    season is gone. *)
Theorem missing_season_is_404 season_id repository :
  (season_id ∉ Season.id <$> LocalLeagueRepository.seasons repository →
     Api.get_season season_id repository
     = (HTTPException HTTP_404_NOT_FOUND "Season not found", repository) ∧
     (∀ payload : SeasonUpdate.t,
        Api.update_season season_id payload repository
        = (HTTPException HTTP_404_NOT_FOUND "Season not found", repository)) ∧
     Api.delete_season season_id repository
     = (HTTPException HTTP_404_NOT_FOUND "Season not found", repository)) ∧
  (season_id ∈ Season.id <$> LocalLeagueRepository.seasons repository →
     ∃ repository',
       Api.delete_season season_id repository
       = (Returned HTTP_204_NO_CONTENT (), repository') ∧
       season_id ∉ Season.id <$> LocalLeagueRepository.seasons repository').
Proof.
  split.
  - intros Hmissing.
    pose proof (proj2 (get_season_None repository season_id) Hmissing) as Hget.
    pose proof (proj2 (rowcount_0 repository season_id) Hmissing) as Hcount.
    unfold Api.get_season, Api.update_season, Api.delete_season,
      LocalLeagueRepository.delete_season.
    rewrite Hget, Hcount. done.
  - intros Hstored.
    assert (Hcount : length (filter (λ s, Season.id s = season_id)
                       (LocalLeagueRepository.seasons repository)) ≠ 0%nat).
    { intros Hz. by apply rowcount_0 in Hz. }
    unfold Api.delete_season, LocalLeagueRepository.delete_season.
    rewrite bool_decide_eq_true_2 by lia. rewrite decide_False by done.
    eexists. split; [reflexivity|]. simpl.
    rewrite list_elem_of_fmap. intros (s & -> & Hs).
    by apply list_elem_of_filter in Hs as [? _].
Qed.
End api_claims.

(** ** The properties on the sample league *)

(** Binary64 halves and doubles without rounding on these values. *)
Example binary64_half_plus_half : (f0_5 ⊕ f0_5 : binary64) = f1_0.
Proof. reflexivity. Qed.

(** Standings come out in seed order ([NULL] first); player 2 drew and won in
    the doubled event, player 1 drew and lost there and won in event 6. *)
Example sample_standings :
  LocalLeagueRepository.compute_season_standings (F:=binary64) sample_db 9%N
  = [ SeasonStanding.mk binary64 9 2 1 0 1 (S754_finite false 6755399441055744 (-51));
      SeasonStanding.mk binary64 9 3 0 1 0 (S754_zero false);
      SeasonStanding.mk binary64 9 1 1 1 1 (S754_finite false 4503599627370496 (-51)) ].
Proof. vm_compute. reflexivity. Qed.

(** A match against the outsider 4 counts for player 2 in the standings ... *)
Example sample_standings_outsider :
  standing_of 2%N
    (LocalLeagueRepository.compute_season_standings (F:=binary64) sample_db_outsider 9%N)
  = Some (SeasonStanding.mk binary64 9 2 1 0 2
            (S754_finite false 4503599627370496 (-50))).
Proof. vm_compute. reflexivity. Qed.

(** ... and makes the matrix fail. *)
Example sample_matrix_outsider :
  LocalLeagueRepository.compute_season_matrix (F:=binary64) sample_db_outsider 9%N
  = inl KeyError.
Proof. vm_compute. reflexivity. Qed.

Example sample_matrix_cells :
  match LocalLeagueRepository.compute_season_matrix (F:=binary64) sample_db 9%N with
  | inr mx =>
      SeasonMatrix.player_order mx = [2%N; 3%N; 1%N] ∧
      get_cell (SeasonMatrix.rows mx) 1%N 2%N = Some f1_0 ∧
      get_cell (SeasonMatrix.rows mx) 2%N 1%N
      = Some (S754_finite false 6755399441055744 (-51)) ∧
      get_cell (SeasonMatrix.rows mx) 3%N 1%N = Some f0_0 ∧
      get_cell (SeasonMatrix.rows mx) 1%N 4%N = None
  | inl _ => False
  end.
Proof. vm_compute. repeat split; reflexivity. Qed.

Example sample_unknown_season :
  LocalLeagueRepository.compute_season_matrix (F:=binary64) sample_db 77%N
  = inl ValueError.
Proof. vm_compute. reflexivity. Qed.

Example sample_create_rejected :
  Api.create_season (F:=binary64) (SeasonCreate.mk "autumn" 300 299 None)
    10%N 1234567 sample_db
  = (HTTPException 422 "ends_on must be on or after starts_on", sample_db).
Proof. reflexivity. Qed.

Example sample_create_same_day :
  (Api.create_season (F:=binary64) (SeasonCreate.mk "autumn" 300 300 None)
     10%N 1234567 sample_db).1
  = Returned 201 (SeasonResponse.mk 10 "autumn" 300 300 1234567 None).
Proof. vm_compute. reflexivity. Qed.

Example sample_update_rejected :
  Api.update_season (F:=binary64) 9%N (SeasonUpdate.mk None (Some 231) None None)
    sample_db
  = (HTTPException 422 "ends_on must be on or after starts_on", sample_db).
Proof. vm_compute. reflexivity. Qed.

Example sample_total_weight :
  total_weight_exchanged (F:=Qc) sample_events 1%N 2%N sample_matches = Q2Qc 5.
Proof. apply Qc_is_canon. reflexivity. Qed.

Lemma record_match_draw_witness :
  Match.outcome (sample_match 11 5 1 2 DRAW None) = DRAW ∧
  SeasonStanding.record_match (F:=binary64)
    (SeasonStanding.mk binary64 9 2 3 4 5 f1_0)
    (sample_match 11 5 1 2 DRAW None) (f1_0 ⊕ f1_0)
  = SeasonStanding.mk binary64 9 2 3 4 6 (f1_0 ⊕ (f1_0 ⊕ f1_0) ⊗ f0_5).
Proof.
  split; [reflexivity|].
  apply (proj1 (record_match_draw (F:=binary64)
                  (sample_match 11 5 1 2 DRAW None) (f1_0 ⊕ f1_0) eq_refl)).
Defined.

Lemma record_match_decisive_witness :
  Match.outcome (sample_match 12 5 2 1 PLAYER_ONE_WIN (Some 2%N)) ≠ DRAW ∧
  SeasonStanding.record_match (F:=binary64)
    (SeasonStanding.mk binary64 9 2 3 4 5 f1_0)
    (sample_match 12 5 2 1 PLAYER_ONE_WIN (Some 2%N)) (f1_0 ⊕ f1_0)
  = SeasonStanding.mk binary64 9 2 4 4 5 (f1_0 ⊕ (f1_0 ⊕ f1_0)) ∧
  SeasonStanding.record_match (F:=binary64)
    (SeasonStanding.mk binary64 9 1 3 4 5 f1_0)
    (sample_match 12 5 2 1 PLAYER_ONE_WIN (Some 2%N)) (f1_0 ⊕ f1_0)
  = SeasonStanding.mk binary64 9 1 3 5 5 f1_0.
Proof.
  assert (Hd : Match.outcome (sample_match 12 5 2 1 PLAYER_ONE_WIN (Some 2%N)) ≠ DRAW)
    by discriminate.
  destruct (record_match_decisive (F:=binary64)
              (sample_match 12 5 2 1 PLAYER_ONE_WIN (Some 2%N)) (f1_0 ⊕ f1_0)
              Hd (or_introl eq_refl)) as (Hwinner & Hloser & _).
  split; [exact Hd|]. split.
  - apply (Hwinner (SeasonStanding.mk binary64 9 2 3 4 5 f1_0)). reflexivity.
  - apply (Hloser (SeasonStanding.mk binary64 9 1 3 4 5 f1_0)).
    + right. reflexivity.
    + discriminate.
Defined.

Lemma points_for_player_draw_witness :
  Match.outcome (sample_match 11 5 1 2 DRAW None) = DRAW ∧
  Match.points_for_player (F:=binary64) (sample_match 11 5 1 2 DRAW None) 4%N
    (f1_0 ⊕ f1_0) = f0_5 ⊗ (f1_0 ⊕ f1_0).
Proof.
  split; [reflexivity|].
  apply (points_for_player_draw (F:=binary64)). reflexivity.
Defined.

Lemma delete_season_cascades_witness :
  ∃ self', LocalLeagueRepository.delete_season (F:=binary64) sample_db 9%N = (true, self') ∧
    (∀ s, s ∈ LocalLeagueRepository.seasons self' → Season.id s ≠ 9%N) ∧
    (∀ e, e ∈ LocalLeagueRepository.events self' → EventDay.season_id e ≠ 9%N) ∧
    (∀ p, p ∈ LocalLeagueRepository.season_participants self' →
          SeasonParticipant.season_id p ≠ 9%N) ∧
    (∀ m e, m ∈ LocalLeagueRepository.matches self' →
            e ∈ LocalLeagueRepository.events (F:=binary64) sample_db →
            EventDay.season_id e = 9%N → Match.event_id m ≠ EventDay.id e).
Proof.
  eexists. split; [reflexivity|].
  apply (delete_season_cascades (F:=binary64) sample_db 9%N). reflexivity.
Defined.

(** * Further properties of the code *)

(** ** Match and standing methods *)

(** X1. [opponent_of] answers for the two players of the match and for nobody
    else, and the player it names has the asking player as opponent. *)
Theorem opponent_of_involutive (m : Match.t) (p : UUID) :
  (is_Some (Match.opponent_of m p) ↔ plays_in p m) ∧
  (∀ q, Match.opponent_of m p = Some q →
        plays_in q m ∧ Match.opponent_of m q = Some p).
Proof.
  unfold Match.opponent_of, plays_in. split.
  - repeat case_decide; (split; [intros Hsome | intros Hplays]); eauto.
    + by destruct Hsome.
    + by destruct Hplays.
  - intros q Hq.
    destruct (decide (p = Match.player_one_id m)) as [Hp1|Hp1].
    + injection Hq as <-. split; [right; reflexivity|].
      destruct (decide (Match.player_two_id m = Match.player_one_id m)) as [Heq|Hne].
      * by rewrite Hp1, Heq.
      * rewrite decide_True by done. by rewrite Hp1.
    + destruct (decide (p = Match.player_two_id m)) as [Hp2|Hp2]; [|done].
      injection Hq as <-. split; [left; reflexivity|].
      rewrite decide_True by done. by rewrite Hp2.
Qed.

Section standing_methods.
Context `{FloatOps F}.
Implicit Types (self s : SeasonStanding.t F) (m : Match.t) (w : F).

Lemma record_match_games self m w :
  SeasonStanding.wins (SeasonStanding.record_match self m w)
  + SeasonStanding.losses (SeasonStanding.record_match self m w)
  + SeasonStanding.draws (SeasonStanding.record_match self m w)
  = SeasonStanding.wins self + SeasonStanding.losses self + SeasonStanding.draws self
    + (if decide (counted m) then 1 else 0).
Proof.
  unfold SeasonStanding.record_match, counted.
  destruct (decide (Match.outcome m = DRAW)) as [Hd|Hd].
  { rewrite decide_True by (by left). simpl. lia. }
  destruct (decide (Match.winner_id m = Some _)) as [Hw|Hw].
  { rewrite decide_True by (right; by rewrite Hw). simpl. lia. }
  destruct (decide (Match.winner_id m ≠ None)) as [Hn|Hn].
  { rewrite decide_True by (by right). simpl. lia. }
  rewrite decide_False by tauto. lia.
Qed.

(** X2. [record_match] keeps the season and the player of the standing, never
    lowers a count, and counts the match once: a draw or a decisive match
    with a winner raises exactly one of wins, losses and draws by one.  A
    decisive match without a winner leaves the standing as it was. *)
Theorem record_match_counts_once self m w :
  SeasonStanding.season_id (SeasonStanding.record_match self m w)
  = SeasonStanding.season_id self ∧
  SeasonStanding.player_id (SeasonStanding.record_match self m w)
  = SeasonStanding.player_id self ∧
  SeasonStanding.wins self ≤ SeasonStanding.wins (SeasonStanding.record_match self m w) ∧
  SeasonStanding.losses self
  ≤ SeasonStanding.losses (SeasonStanding.record_match self m w) ∧
  SeasonStanding.draws self ≤ SeasonStanding.draws (SeasonStanding.record_match self m w) ∧
  SeasonStanding.wins (SeasonStanding.record_match self m w)
  + SeasonStanding.losses (SeasonStanding.record_match self m w)
  + SeasonStanding.draws (SeasonStanding.record_match self m w)
  = SeasonStanding.wins self + SeasonStanding.losses self + SeasonStanding.draws self
    + (if decide (counted m) then 1 else 0) ∧
  (¬ counted m → SeasonStanding.record_match self m w = self).
Proof.
  assert (Hcases :
    (counted m ∧
     ((SeasonStanding.record_match self m w
       = SeasonStanding.mk F (SeasonStanding.season_id self)
           (SeasonStanding.player_id self) (SeasonStanding.wins self + 1)
           (SeasonStanding.losses self) (SeasonStanding.draws self)
           (SeasonStanding.weighted_points self ⊕ w)) ∨
      (SeasonStanding.record_match self m w
       = SeasonStanding.mk F (SeasonStanding.season_id self)
           (SeasonStanding.player_id self) (SeasonStanding.wins self)
           (SeasonStanding.losses self + 1) (SeasonStanding.draws self)
           (SeasonStanding.weighted_points self)) ∨
      (SeasonStanding.record_match self m w
       = SeasonStanding.mk F (SeasonStanding.season_id self)
           (SeasonStanding.player_id self) (SeasonStanding.wins self)
           (SeasonStanding.losses self) (SeasonStanding.draws self + 1)
           (SeasonStanding.weighted_points self ⊕ w ⊗ f0_5)))) ∨
    (¬ counted m ∧ SeasonStanding.record_match self m w = self)).
  { unfold SeasonStanding.record_match, counted.
    destruct (decide (Match.outcome m = DRAW)) as [Hd|Hd].
    { left. split; [by left|]. right. by right. }
    destruct (decide (Match.winner_id m = Some _)) as [Hw|Hw].
    { left. split; [right; by rewrite Hw|]. by left. }
    destruct (decide (Match.winner_id m ≠ None)) as [Hn|Hn].
    { left. split; [by right|]. right. by left. }
    right. split; [tauto | done]. }
  destruct Hcases as [[Hc [Hrec|[Hrec|Hrec]]]|[Hc Hrec]]; rewrite Hrec; simpl.
  - rewrite decide_True by done. split_and!; try done; try lia.
  - rewrite decide_True by done. split_and!; try done; try lia.
  - rewrite decide_True by done. split_and!; try done; try lia.
  - rewrite decide_False by done. split_and!; try done; try lia.
Qed.
End standing_methods.

(** ** The list of standings *)

Section standings_list.
Context `{FloatOps F}.
Implicit Types (self : LocalLeagueRepository.db F) (season_id p : UUID).

(** The whole list [compute_season_standings] returns: one tally per key of
    the [standings] dict, in the order of the keys. *)
Lemma compute_season_standings_tallies self season_id :
  LocalLeagueRepository.compute_season_standings self season_id
  = (λ k, tally (LocalLeagueRepository.list_events self season_id) k
            (SeasonStanding.new season_id k) (season_matches self season_id))
    <$> first_occurrences
          (SeasonParticipant.player_id
             <$> LocalLeagueRepository.list_season_participants self season_id).
Proof.
  unfold LocalLeagueRepository.compute_season_standings, season_matches.
  set (events := LocalLeagueRepository.list_events self season_id).
  set (matches := LocalLeagueRepository.list_matches_for_events self _).
  set (participants := LocalLeagueRepository.list_season_participants self season_id).
  assert (Hst :
    (λ participant, (SeasonParticipant.player_id participant,
       SeasonStanding.new (F:=F) season_id (SeasonParticipant.player_id participant)))
      <$> participants
    = (λ k, (k, SeasonStanding.new season_id k))
        <$> (SeasonParticipant.player_id <$> participants)).
  { by rewrite <- list_fmap_compose. }
  rewrite Hst, (odict_comp_fmap (λ k, SeasonStanding.new (F:=F) season_id k)).
  pose proof (foldl_record_in_all events matches
    ((λ k, (k, SeasonStanding.new season_id k)) <$> first_occurrences
       (SeasonParticipant.player_id <$> participants))) as Hloop.
  unfold match_weight, SeasonMatrix.event_weights in Hloop.
  rewrite Hloop. by rewrite <- !list_fmap_compose.
Qed.

Lemma NoDup_foldl_first (l acc : list UUID) :
  NoDup acc →
  NoDup (foldl (λ acc k, if decide (k ∈ acc) then acc else acc ++ [k]) acc l).
Proof.
  revert acc. induction l as [|k l IH]; intros acc Hacc; [done|].
  simpl. apply IH. case_decide; [done|].
  apply NoDup_app. split; [done|]. split; [|apply NoDup_singleton].
  intros x Hx ->%list_elem_of_singleton. done.
Qed.

Lemma first_occurrences_NoDup (l : list UUID) : NoDup (first_occurrences l).
Proof. apply NoDup_foldl_first, NoDup_nil_2. Qed.

Lemma foldl_first_id (l acc : list UUID) :
  NoDup (acc ++ l) →
  foldl (λ acc k, if decide (k ∈ acc) then acc else acc ++ [k]) acc l = acc ++ l.
Proof.
  revert acc. induction l as [|k l IH]; intros acc Hnd; simpl.
  - by rewrite app_nil_r.
  - apply NoDup_app in Hnd as Hparts. destruct Hparts as (_ & Hdisj & _).
    rewrite decide_False by (intros Hin; apply (Hdisj k Hin); by left).
    rewrite IH; rewrite <- (assoc_L (++)); done.
Qed.

Lemma first_occurrences_id (l : list UUID) : NoDup l → first_occurrences l = l.
Proof. intros Hnd. by apply (foldl_first_id l []). Qed.

Lemma tally_season_id events p (s : SeasonStanding.t F) (matches : list Match.t) :
  SeasonStanding.season_id (tally events p s matches) = SeasonStanding.season_id s.
Proof.
  revert s. induction matches as [|m matches IH]; intros s; [done|].
  unfold tally in *. simpl. rewrite IH.
  case_decide; [|done].
  unfold SeasonStanding.record_match. by repeat case_decide.
Qed.

(** X3. [compute_season_standings] returns one standing for each player that has
    a participant row of the season, each player once, in the order of
    [list_season_participants], and every standing carries the season id
    asked for.  It returns an empty list when the season has no participant,
    whether or not the season exists. *)
Theorem standings_one_per_participant self season_id :
  let participants :=
    SeasonParticipant.player_id
      <$> LocalLeagueRepository.list_season_participants self season_id in
  let standings := LocalLeagueRepository.compute_season_standings self season_id in
  SeasonStanding.player_id <$> standings = first_occurrences participants ∧
  NoDup (SeasonStanding.player_id <$> standings) ∧
  (∀ p, p ∈ SeasonStanding.player_id <$> standings ↔ p ∈ participants) ∧
  (NoDup participants → SeasonStanding.player_id <$> standings = participants) ∧
  (∀ s, s ∈ standings → SeasonStanding.season_id s = season_id) ∧
  (participants = [] → standings = []).
Proof.
  intros participants standings.
  assert (Hids : SeasonStanding.player_id <$> standings = first_occurrences participants).
  { subst standings. rewrite compute_season_standings_tallies.
    rewrite <- list_fmap_compose. fold participants.
    induction (first_occurrences participants) as [|k ks IH]; [done|].
    cbn [fmap list_fmap compose]. rewrite tally_player_id. simpl. by f_equal. }
  split; [done|]. rewrite Hids.
  split; [apply first_occurrences_NoDup|].
  split; [apply elem_of_first_occurrences|].
  split; [apply first_occurrences_id|].
  split.
  - subst standings. rewrite compute_season_standings_tallies.
    intros s (k & -> & _)%list_elem_of_fmap. by rewrite tally_season_id.
  - intros Hnil. subst standings. rewrite compute_season_standings_tallies.
    fold participants. by rewrite Hnil.
Qed.

Lemma tally_games events p (s : SeasonStanding.t F) (matches : list Match.t) :
  SeasonStanding.wins (tally events p s matches)
  + SeasonStanding.losses (tally events p s matches)
  + SeasonStanding.draws (tally events p s matches)
  = SeasonStanding.wins s + SeasonStanding.losses s + SeasonStanding.draws s
    + Z.of_nat (length (filter counted (filter (plays_in p) matches))).
Proof.
  revert s. induction matches as [|m matches IH]; intros s.
  - simpl. lia.
  - unfold tally in *. cbn [foldl]. rewrite IH. rewrite (filter_cons (plays_in p)).
    unfold plays_in at 2.
    destruct (decide (p = Match.player_one_id m ∨ p = Match.player_two_id m)).
    + rewrite filter_cons.
      rewrite record_match_games. case_decide; cbn [length]; lia.
    + lia.
Qed.

(** X4. The wins, losses and draws of a standing add up to the number of matches
    of the season that list the player and are a draw or name a winner: a
    decisive match without a winner is counted for nobody. *)
Theorem standing_games_counted self season_id p (s : SeasonStanding.t F) :
  standing_of p (LocalLeagueRepository.compute_season_standings self season_id)
  = Some s →
  SeasonStanding.wins s + SeasonStanding.losses s + SeasonStanding.draws s
  = Z.of_nat
      (length (filter counted (filter (plays_in p) (season_matches self season_id)))).
Proof.
  rewrite compute_season_standings_tallies.
  rewrite (standing_of_fmap
    (λ k, tally (LocalLeagueRepository.list_events self season_id) k
            (SeasonStanding.new season_id k) (season_matches self season_id)))
    by (intros k; by rewrite tally_player_id).
  case_decide; [|done]. intros [= <-]. rewrite tally_games. simpl. lia.
Qed.
End standings_list.

(** ** The cells of the matrix *)

Section matrix_cells.
Context `{FloatOps F}.
Implicit Types (rows : gmap UUID (gmap UUID F)) (ids : list UUID) (m : Match.t).

Lemma add_matches_rows_over ids weights rows rows' (matches : list Match.t) :
  rows_over ids rows → SeasonMatrix.add_matches weights rows matches = Some rows' →
  rows_over ids rows'.
Proof.
  revert rows. induction matches as [|m matches IH]; intros rows Hover; simpl.
  - by intros [= <-].
  - destruct (SeasonMatrix.add_match weights rows m) as [rows1|] eqn:H1; [|done].
    simpl. apply IH. by eapply add_match_rows_over.
Qed.

(** X5. A matrix [build] returns has a cell for every ordered pair of listed
    players, the pair of a player with themselves included, and no cell for
    any other pair. *)
Theorem build_cells_are_listed_pairs (season_id : UUID) ids
  (events : list (EventDay.t F)) (matches : list Match.t) (mx : SeasonMatrix.t F) :
  SeasonMatrix.build season_id ids events matches = Some mx →
  ∀ a b, is_Some (get_cell (SeasonMatrix.rows mx) a b) ↔ a ∈ ids ∧ b ∈ ids.
Proof.
  unfold SeasonMatrix.build. intros Hbuild.
  destruct (SeasonMatrix.add_matches _ _ matches) as [rows'|] eqn:Hadd; [|done].
  injection Hbuild as <-. simpl.
  apply (add_matches_rows_over ids _ _ _ _ (rows_over_zero_rows ids) Hadd).
Qed.

Lemma add_match_other_cell weights rows rows' m a b :
  SeasonMatrix.add_match weights rows m = Some rows' → ¬ between a b m →
  get_cell rows' a b = get_cell rows a b.
Proof.
  unfold SeasonMatrix.add_match, between. intros Hadd Hnot.
  destruct (decide (Match.outcome m = DRAW)) as [Hd|Hd].
  - destruct (SeasonMatrix.add_cell rows _ _ _) as [rows1|] eqn:H1; [|done].
    simpl in Hadd.
    rewrite (add_cell_get _ _ _ _ _ a b Hadd), (add_cell_get _ _ _ _ _ a b H1).
    rewrite !decide_False; [done | |]; intros [-> ->]; tauto.
  - destruct (decide (Match.winner_id m = Some (Match.player_one_id m))).
    { rewrite (add_cell_get _ _ _ _ _ a b Hadd).
      rewrite decide_False; [done|]. intros [-> ->]; tauto. }
    destruct (decide (Match.winner_id m = Some (Match.player_two_id m))).
    { rewrite (add_cell_get _ _ _ _ _ a b Hadd).
      rewrite decide_False; [done|]. intros [-> ->]; tauto. }
    by injection Hadd as <-.
Qed.

Lemma add_matches_other_cell weights rows rows' (matches : list Match.t) a b :
  SeasonMatrix.add_matches weights rows matches = Some rows' →
  Forall (λ m, ¬ between a b m) matches →
  get_cell rows' a b = get_cell rows a b.
Proof.
  intros Hadd Hnone. revert rows Hadd.
  induction Hnone as [|m matches Hm Hnone IH]; intros rows Hadd; simpl in Hadd.
  - by injection Hadd as <-.
  - destruct (SeasonMatrix.add_match weights rows m) as [rows1|] eqn:H1; [|done].
    simpl in Hadd. rewrite (IH _ Hadd). by eapply add_match_other_cell.
Qed.

(** X6. Two listed players with no match between them have [0.0] in their cell;
    so the diagonal cell of a player who never played themselves is [0.0]. *)
Theorem cell_without_match_is_zero (season_id : UUID) ids
  (events : list (EventDay.t F)) (matches : list Match.t) (mx : SeasonMatrix.t F)
  (a b : UUID) :
  SeasonMatrix.build season_id ids events matches = Some mx →
  a ∈ ids → b ∈ ids →
  Forall (λ m, ¬ between a b m) matches →
  get_cell (SeasonMatrix.rows mx) a b = Some f0_0.
Proof.
  unfold SeasonMatrix.build. intros Hbuild Ha Hb Hnone.
  destruct (SeasonMatrix.add_matches _ _ matches) as [rows'|] eqn:Hadd; [|done].
  injection Hbuild as <-. simpl.
  rewrite (add_matches_other_cell _ _ _ _ a b Hadd Hnone), get_cell_zero_rows.
  by rewrite decide_True.
Qed.

Lemma add_match_cell_earned (events : list (EventDay.t F)) rows rows' m a b x :
  SeasonMatrix.add_match (SeasonMatrix.event_weights events) rows m = Some rows' →
  a ≠ b → get_cell rows a b = Some x →
  get_cell rows' a b = Some (from_option (λ e, x ⊕ e) x (earned events a b m)).
Proof.
  intros Hadd Hab Hx. unfold earned.
  destruct (decide (between a b m)) as [Hbet|Hbet]; simpl;
    [|by rewrite (add_match_other_cell _ _ _ _ _ _ Hadd Hbet)].
  unfold SeasonMatrix.add_match, match_weight in *. unfold between in Hbet.
  destruct (decide (Match.outcome m = DRAW)) as [Hd|Hd].
  - destruct (SeasonMatrix.add_cell rows _ _ _) as [rows1|] eqn:H1; [|done].
    simpl in Hadd.
    rewrite (add_cell_get _ _ _ _ _ a b Hadd), (add_cell_get _ _ _ _ _ a b H1), Hx.
    destruct Hbet as [[<- <-]|[<- <-]].
    + rewrite (decide_False (P := _ ∧ _)) by (intros [? ?]; congruence).
      by rewrite decide_True.
    + rewrite decide_True by done.
      by rewrite (decide_False (P := _ ∧ _)) by (intros [? ?]; congruence).
  - destruct (decide (Match.winner_id m = Some (Match.player_one_id m))) as [H1|H1].
    { rewrite (add_cell_get _ _ _ _ _ a b Hadd), Hx.
      destruct Hbet as [[<- <-]|[<- <-]].
      - rewrite decide_True by done. by rewrite decide_True.
      - rewrite decide_False by (intros [? ?]; congruence).
        rewrite decide_False; [done|]. rewrite H1. congruence. }
    destruct (decide (Match.winner_id m = Some (Match.player_two_id m))) as [H2|H2].
    { rewrite (add_cell_get _ _ _ _ _ a b Hadd), Hx.
      destruct Hbet as [[<- <-]|[<- <-]].
      - rewrite decide_False by (intros [? ?]; congruence).
        by rewrite decide_False.
      - rewrite decide_True by done. by rewrite decide_True. }
    injection Hadd as <-. rewrite Hx.
    destruct Hbet as [[<- <-]|[<- <-]]; by rewrite decide_False.
Qed.

Lemma add_matches_cell_earned (events : list (EventDay.t F)) rows rows'
  (matches : list Match.t) a b x :
  SeasonMatrix.add_matches (SeasonMatrix.event_weights events) rows matches
  = Some rows' →
  a ≠ b → get_cell rows a b = Some x →
  get_cell rows' a b
  = Some (foldl (λ acc m, from_option (λ e, acc ⊕ e) acc (earned events a b m))
            x matches).
Proof.
  intros Hadd Hab. revert rows x Hadd.
  induction matches as [|m matches IH]; intros rows x Hadd Hx; simpl in Hadd.
  - injection Hadd as <-. done.
  - destruct (SeasonMatrix.add_match _ rows m) as [rows1|] eqn:H1; [|done].
    simpl in Hadd. cbn [foldl].
    apply (IH rows1 _ Hadd). by apply (add_match_cell_earned events rows).
Qed.

(** X7. For listed players [a ≠ b] the cell [rows[a][b]] of a matrix [build]
    returns is what the matches gave [a] against [b], added up from [0.0] in
    the order of the matches: half the weight of each draw between the two
    and the weight of each decisive match between them with [a] as winner.
    This is the float the code computes, rounding included. *)
Theorem cell_is_points_earned (season_id : UUID) ids
  (events : list (EventDay.t F)) (matches : list Match.t) (mx : SeasonMatrix.t F)
  (a b : UUID) :
  SeasonMatrix.build season_id ids events matches = Some mx →
  a ∈ ids → b ∈ ids → a ≠ b →
  get_cell (SeasonMatrix.rows mx) a b = Some (points_earned events a b matches).
Proof.
  unfold SeasonMatrix.build. intros Hbuild Ha Hb Hab.
  destruct (SeasonMatrix.add_matches _ _ matches) as [rows'|] eqn:Hadd; [|done].
  injection Hbuild as <-. simpl.
  apply (add_matches_cell_earned events _ _ _ a b f0_0 Hadd Hab).
  rewrite get_cell_zero_rows. by rewrite decide_True.
Qed.
End matrix_cells.

(** ** A cell and its transpose *)

Section cell_and_transpose.
Context `{FloatOps F}.
Implicit Types (ids : list UUID) (m : Match.t).

Lemma earned_is_side_share (events : list (EventDay.t F)) (a b : UUID) m :
  earned events a b m = side_share events a b m.
Proof. unfold earned, side_share. by rewrite match_weight_is_owning. Qed.

Lemma points_earned_is_side_total (events : list (EventDay.t F)) (a b : UUID)
  (matches : list Match.t) :
  points_earned events a b matches = side_total events a b matches.
Proof.
  unfold points_earned, side_total. generalize (f0_0 : F).
  induction matches as [|m matches IH]; intros acc; [done|].
  cbn [foldl]. by rewrite earned_is_side_share, IH.
Qed.

Lemma between_sym (a b : UUID) m : between a b m ↔ between b a m.
Proof. unfold between. tauto. Qed.

(** What one match puts into the two shares. *)
Lemma side_shares_of_match (events : list (EventDay.t F)) (a b : UUID) m :
  a ≠ b → winner_plays m →
  if decide (between a b m) then
    if decide (Match.outcome m = DRAW) then
      side_share events a b m = Some (owning_event_weight events m ⊗ f0_5) ∧
      side_share events b a m = Some (owning_event_weight events m ⊗ f0_5)
    else
      (side_share events a b m = Some (owning_event_weight events m) ∧
       side_share events b a m = None) ∨
      (side_share events a b m = None ∧
       side_share events b a m = Some (owning_event_weight events m))
  else side_share events a b m = None ∧ side_share events b a m = None.
Proof.
  intros Hab Hwin. unfold side_share.
  destruct (decide (between a b m)) as [Hbet|Hbet].
  - rewrite (decide_True (P := between b a m)) by (by apply between_sym).
    destruct (decide (Match.outcome m = DRAW)) as [Hd|Hd]; [done|].
    destruct (decide (Match.winner_id m = Some a)) as [Ha|Ha].
    + left. split; [done|]. rewrite decide_False; [done|]. rewrite Ha. congruence.
    + right. split; [done|]. rewrite decide_True; [done|].
      destruct (Hwin Hd) as [Hw|Hw]; rewrite Hw in *;
        destruct Hbet as [[H1 H2]|[H1 H2]]; congruence.
  - rewrite (decide_False (P := between b a m)); [done|].
    intros Hba. by apply Hbet, between_sym.
Qed.

(** C1. In a matrix [build] returned, for listed players [a ≠ b] and matches
    whose winner, when decisive, is one of the two players, each match
    between [a] and [b] gives the weight of its owning event to the two
    players: half of it to each for a draw ([weight * 0.5]), all of it to the
    winner otherwise, and no other match gives them anything.  The cell
    [rows[a][b]] is the shares of [a] added up from [0.0] in match order, the
    transpose [rows[b][a]] those of [b], and the cell plus its transpose is
    the float sum of these two totals. *)
Theorem cell_plus_transpose_is_sum_of_shares (season_id : UUID) ids
  (events : list (EventDay.t F)) (matches : list Match.t)
  (mx : SeasonMatrix.t F) (a b : UUID) :
  SeasonMatrix.build season_id ids events matches = Some mx →
  a ∈ ids → b ∈ ids → a ≠ b →
  Forall winner_plays matches →
  (∃ x y, get_cell (SeasonMatrix.rows mx) a b = Some x ∧
          get_cell (SeasonMatrix.rows mx) b a = Some y ∧
          x = side_total events a b matches ∧
          y = side_total events b a matches ∧
          x ⊕ y = side_total events a b matches ⊕ side_total events b a matches) ∧
  (∀ m, m ∈ matches →
     if decide (between a b m) then
       if decide (Match.outcome m = DRAW) then
         side_share events a b m = Some (owning_event_weight events m ⊗ f0_5) ∧
         side_share events b a m = Some (owning_event_weight events m ⊗ f0_5)
       else
         (side_share events a b m = Some (owning_event_weight events m) ∧
          side_share events b a m = None) ∨
         (side_share events a b m = None ∧
          side_share events b a m = Some (owning_event_weight events m))
     else side_share events a b m = None ∧ side_share events b a m = None).
Proof.
  intros Hbuild Ha Hb Hab Hwin. split.
  - unfold SeasonMatrix.build in Hbuild.
    destruct (SeasonMatrix.add_matches _ _ matches) as [rows'|] eqn:Hadd; [|done].
    injection Hbuild as <-. simpl.
    assert (Hzero : ∀ c d, c ∈ ids → d ∈ ids →
              get_cell (SeasonMatrix.zero_rows (F:=F) ids) c d = Some f0_0).
    { intros c d Hc Hd. rewrite get_cell_zero_rows. by rewrite decide_True. }
    pose proof (add_matches_cell_earned events _ _ _ a b f0_0 Hadd Hab
                  (Hzero a b Ha Hb)) as Hx.
    pose proof (add_matches_cell_earned events _ _ _ b a f0_0 Hadd
                  (not_eq_sym Hab) (Hzero b a Hb Ha)) as Hy.
    fold (points_earned events a b matches) in Hx.
    fold (points_earned events b a matches) in Hy.
    rewrite points_earned_is_side_total in Hx, Hy.
    eexists _, _. split; [exact Hx|]. split; [exact Hy|]. done.
  - intros m Hm. apply side_shares_of_match; [done|].
    by apply (proj1 (Forall_forall _ _) Hwin).
Qed.
End cell_and_transpose.

(** ** Values kept in the store *)

(** X9. The text stored for an outcome reads back as the same outcome, and only
    the three values of the enum read back at all. *)
Theorem MatchOutcome_value_round_trip :
  (∀ outcome, MatchOutcome_of_value (MatchOutcome_value outcome) = Some outcome) ∧
  (∀ value outcome, MatchOutcome_of_value value = Some outcome →
                    MatchOutcome_value outcome = value).
Proof.
  split.
  - by intros [].
  - intros value outcome. unfold MatchOutcome_of_value.
    repeat case_decide; intros [= <-]; by subst.
Qed.

(** X10. A stored [created_at] is the given time cut down to the whole second:
    never later, less than a second earlier, and the same time exactly when
    the microseconds were zero.  Storing it again changes nothing. *)
Theorem iso_datetime_whole_second (value : datetime) :
  _iso_datetime value ≤ value < _iso_datetime value + 1000000 ∧
  _iso_datetime value `mod` 1000000 = 0 ∧
  (_iso_datetime value = value ↔ value `mod` 1000000 = 0) ∧
  _iso_datetime (_iso_datetime value) = _iso_datetime value.
Proof.
  unfold _iso_datetime.
  pose proof (Z.div_mod value 1000000 ltac:(lia)) as Hdm.
  pose proof (Z.mod_pos_bound value 1000000 ltac:(lia)) as Hb.
  split; [lia|]. split; [apply Z.mod_mul; lia|]. split; [lia|].
  rewrite Z.div_mul by lia. done.
Qed.

(** ** Seasons in the store *)

Section season_store.
Context `{FloatOps F}.
Implicit Types (self : LocalLeagueRepository.db F) (season : Season.t).

Lemma get_season_app self (rows : list Season.t) (season_id : UUID) players
  participants events matches :
  LocalLeagueRepository.get_season
    (LocalLeagueRepository.mk (F:=F) players (LocalLeagueRepository.seasons self ++ rows)
       participants events matches) season_id
  = match LocalLeagueRepository.get_season self season_id with
    | Some s => Some s
    | None => head (filter (λ s, Season.id s = season_id) rows)
    end.
Proof.
  unfold LocalLeagueRepository.get_season. simpl. rewrite filter_app.
  by destruct (filter _ (LocalLeagueRepository.seasons self)).
Qed.

(** X11. [add_season] stores the season exactly when its id is not taken.  The
    season is then read back by [get_season] with its [created_at] cut to the
    second and every other field as given; seasons under other ids and the
    other tables are as before. *)
Theorem add_season_then_get self season :
  (is_Some (LocalLeagueRepository.add_season self season)
   ↔ Season.id season ∉ Season.id <$> LocalLeagueRepository.seasons self) ∧
  (∀ self', LocalLeagueRepository.add_season self season = Some self' →
     LocalLeagueRepository.get_season self' (Season.id season)
     = Some (Season.mk (Season.id season) (Season.title season)
               (Season.starts_on season) (Season.ends_on season)
               (_iso_datetime (Season.created_at season))
               (Season.description season)) ∧
     (∀ other, other ≠ Season.id season →
        LocalLeagueRepository.get_season self' other
        = LocalLeagueRepository.get_season self other) ∧
     LocalLeagueRepository.players self' = LocalLeagueRepository.players self ∧
     LocalLeagueRepository.season_participants self'
     = LocalLeagueRepository.season_participants self ∧
     LocalLeagueRepository.events self' = LocalLeagueRepository.events self ∧
     LocalLeagueRepository.matches self' = LocalLeagueRepository.matches self).
Proof.
  unfold LocalLeagueRepository.add_season.
  destruct (decide (Season.id season ∈ _)) as [Hin|Hfresh].
  - split; [|done]. split; [by intros [] | done].
  - split; [split; eauto|]. intros self' [= <-]. split_and!; try done.
    + rewrite get_season_app.
      rewrite (proj2 (get_season_None self (Season.id season)) Hfresh).
      simpl. by rewrite filter_cons_True, filter_nil.
    + intros other Hother. rewrite get_season_app.
      destruct (LocalLeagueRepository.get_season self other); [done|].
      by rewrite filter_cons_False, filter_nil.
Qed.

Lemma fmap_unchanged {A : Type} (f : A → A) (l : list A) :
  (∀ x, x ∈ l → f x = x) → f <$> l = l.
Proof.
  induction l as [|x l IH]; intros Hf; [done|].
  cbn [fmap list_fmap]. rewrite Hf by (by left).
  f_equal. apply IH. intros y Hy. apply Hf. by right.
Qed.

Lemma head_filter_fmap {A : Type} (P : A → Prop) `{!∀ x, Decision (P x)}
  (f : A → A) (l : list A) :
  (∀ x, P (f x) ↔ P x) →
  head (filter P (f <$> l)) = f <$> head (filter P l).
Proof.
  intros Hf. induction l as [|x l IH]; [done|].
  cbn [fmap list_fmap]. rewrite !filter_cons.
  destruct (decide (P x)) as [HP|HP].
  - by rewrite decide_True by (by apply Hf).
  - by rewrite decide_False by (by rewrite Hf).
Qed.

(** X12. [update_season] returns [None] exactly when no season has the id, and
    the store is then as before.  Otherwise it returns the season it was
    given, and [get_season] afterwards gives the new title, dates and
    description under the stored id and the stored [created_at] (the
    [created_at] passed in is not written).  Seasons under other ids and the
    other tables are as before. *)
Theorem update_season_then_get self season :
  let result := LocalLeagueRepository.update_season self season in
  (result.1 = None
   ↔ Season.id season ∉ Season.id <$> LocalLeagueRepository.seasons self) ∧
  (result.1 = None → result.2 = self) ∧
  (result.1 ≠ None → result.1 = Some season) ∧
  (∀ stored, LocalLeagueRepository.get_season self (Season.id season) = Some stored →
     LocalLeagueRepository.get_season result.2 (Season.id season)
     = Some (Season.mk (Season.id season) (Season.title season)
               (Season.starts_on season) (Season.ends_on season)
               (Season.created_at stored) (Season.description season))) ∧
  (∀ other, other ≠ Season.id season →
     LocalLeagueRepository.get_season result.2 other
     = LocalLeagueRepository.get_season self other) ∧
  LocalLeagueRepository.players result.2 = LocalLeagueRepository.players self ∧
  LocalLeagueRepository.season_participants result.2
  = LocalLeagueRepository.season_participants self ∧
  LocalLeagueRepository.events result.2 = LocalLeagueRepository.events self ∧
  LocalLeagueRepository.matches result.2 = LocalLeagueRepository.matches self.
Proof.
  intros result. subst result. unfold LocalLeagueRepository.update_season.
  set (f := λ s : Season.t, if decide (Season.id s = Season.id season)
              then Season.mk (Season.id s) (Season.title season)
                     (Season.starts_on season) (Season.ends_on season)
                     (Season.created_at s) (Season.description season)
              else s).
  assert (Hid : ∀ s, Season.id (f s) = Season.id s).
  { intros s. unfold f. by case_decide. }
  assert (Hget : ∀ other,
    LocalLeagueRepository.get_season
      (LocalLeagueRepository.mk (LocalLeagueRepository.players self)
         (f <$> LocalLeagueRepository.seasons self)
         (LocalLeagueRepository.season_participants self)
         (LocalLeagueRepository.events self) (LocalLeagueRepository.matches self))
      other
    = f <$> LocalLeagueRepository.get_season self other).
  { intros other. unfold LocalLeagueRepository.get_season. simpl.
    apply head_filter_fmap. intros s. by rewrite Hid. }
  destruct (decide (length _ = 0%nat)) as [Hz|Hnz]; simpl.
  - apply rowcount_0 in Hz as Hmissing.
    assert (Hsame : f <$> LocalLeagueRepository.seasons self
                    = LocalLeagueRepository.seasons self).
    { apply fmap_unchanged. intros s Hs. unfold f. rewrite decide_False; [done|].
      intros Heq. apply Hmissing. rewrite <- Heq. apply list_elem_of_fmap. by exists s. }
    rewrite Hsame. split_and!; try done.
    + by destruct self.
    + intros stored Hstored.
      by rewrite (proj2 (get_season_None self _) Hmissing) in Hstored.
  - split_and!; try done.
    + split; [done|]. intros Hmissing. by apply rowcount_0 in Hmissing.
    + intros stored Hstored. rewrite Hget, Hstored. simpl. unfold f.
      apply get_season_Some in Hstored as [Hsid _].
      rewrite decide_True by done. by rewrite Hsid.
    + intros other Hother. rewrite Hget.
      destruct (LocalLeagueRepository.get_season self other) as [s|] eqn:Hs; [|done].
      apply get_season_Some in Hs as [Hsid _]. simpl. unfold f.
      rewrite decide_False by congruence. done.
Qed.

(** X13. [delete_season] returns [False] and leaves the store as it was when no
    season has the id.  In every case it adds no row, leaves the players
    alone, and keeps the seasons with another id, the events and participants
    of other seasons and the matches none of whose events belongs to the
    deleted season. *)
Theorem delete_season_keeps_the_rest self (season_id : UUID) :
  let result := LocalLeagueRepository.delete_season self season_id in
  (result.1 = false
   ↔ season_id ∉ Season.id <$> LocalLeagueRepository.seasons self) ∧
  (result.1 = false → result.2 = self) ∧
  LocalLeagueRepository.players result.2 = LocalLeagueRepository.players self ∧
  (∀ s, s ∈ LocalLeagueRepository.seasons result.2
        ↔ s ∈ LocalLeagueRepository.seasons self ∧ Season.id s ≠ season_id) ∧
  (∀ e, e ∈ LocalLeagueRepository.events self → EventDay.season_id e ≠ season_id →
        e ∈ LocalLeagueRepository.events result.2) ∧
  (∀ p, p ∈ LocalLeagueRepository.season_participants self →
        SeasonParticipant.season_id p ≠ season_id →
        p ∈ LocalLeagueRepository.season_participants result.2) ∧
  (∀ m, m ∈ LocalLeagueRepository.matches self →
        (∀ e, e ∈ LocalLeagueRepository.events self →
              EventDay.id e = Match.event_id m → EventDay.season_id e ≠ season_id) →
        m ∈ LocalLeagueRepository.matches result.2) ∧
  (∀ e, e ∈ LocalLeagueRepository.events result.2 →
        e ∈ LocalLeagueRepository.events self) ∧
  (∀ p, p ∈ LocalLeagueRepository.season_participants result.2 →
        p ∈ LocalLeagueRepository.season_participants self) ∧
  (∀ m, m ∈ LocalLeagueRepository.matches result.2 →
        m ∈ LocalLeagueRepository.matches self).
Proof.
  intros result. subst result. unfold LocalLeagueRepository.delete_season.
  destruct (decide (length _ = 0%nat)) as [Hz|Hnz]; simpl.
  - rewrite Hz. apply rowcount_0 in Hz as Hmissing.
    rewrite bool_decide_eq_false_2 by lia.
    split_and!; try done.
    intros s. split; [|tauto]. intros Hs. split; [done|].
    intros Heq. apply Hmissing. rewrite <- Heq. apply list_elem_of_fmap. by exists s.
  - rewrite bool_decide_eq_true_2 by lia.
    split_and!; try done.
    + split; [done|]. intros Hmissing. by apply rowcount_0 in Hmissing.
    + intros s. rewrite list_elem_of_filter. tauto.
    + intros e He Hne. by apply list_elem_of_filter.
    + intros p Hp Hne. by apply list_elem_of_filter.
    + intros m Hm Hev. apply list_elem_of_filter. split; [|done].
      intros (e & Heq & He)%list_elem_of_fmap.
      apply list_elem_of_filter in He as [Hs He]. by apply (Hev e He).
    + intros e He. by apply list_elem_of_filter in He as [_ ?].
    + intros p Hp. by apply list_elem_of_filter in Hp as [_ ?].
    + intros m Hm. by apply list_elem_of_filter in Hm as [_ ?].
Qed.

(** Deleting a season a second time finds nothing to delete: it returns
    [False] and changes nothing. *)
Theorem delete_season_twice self (season_id : UUID) :
  LocalLeagueRepository.delete_season
    (LocalLeagueRepository.delete_season self season_id).2 season_id
  = (false, (LocalLeagueRepository.delete_season self season_id).2).
Proof.
  assert (Hgone : season_id ∉ Season.id <$> LocalLeagueRepository.seasons
                    (LocalLeagueRepository.delete_season self season_id).2).
  { unfold LocalLeagueRepository.delete_season.
    destruct (decide (length _ = 0%nat)) as [Hz|Hnz]; simpl.
    - by apply rowcount_0.
    - intros (s & -> & Hs)%list_elem_of_fmap.
      by apply list_elem_of_filter in Hs as [? _]. }
  apply rowcount_0 in Hgone.
  unfold LocalLeagueRepository.delete_season at 1. rewrite Hgone.
  by rewrite decide_True.
Qed.
End season_store.

(** ** Reading a season *)

#[export] Instance seed_le_total : Total seed_le.
Proof. intros [a|] [b|]; simpl; try tauto. lia. Qed.

#[export] Instance seed_le_trans : Transitive seed_le.
Proof. intros [a|] [b|] [c|]; simpl; try tauto. lia. Qed.

#[export] Instance by_seed_total : Total by_seed.
Proof. intros p q. apply (total seed_le). Qed.

#[export] Instance by_seed_trans : Transitive by_seed.
Proof. intros p q r. apply (transitivity (R:=seed_le)). Qed.

#[export] Instance by_held_on_total {F} : Total (@by_held_on F).
Proof. intros e e'. unfold by_held_on. lia. Qed.

#[export] Instance by_held_on_trans {F} : Transitive (@by_held_on F).
Proof. intros e e' e''. unfold by_held_on. lia. Qed.

#[export] Instance by_starts_on_total : Total by_starts_on.
Proof. intros s s'. unfold by_starts_on. lia. Qed.

#[export] Instance by_starts_on_trans : Transitive by_starts_on.
Proof. intros s s' s''. unfold by_starts_on. lia. Qed.

Section dict_members.
Context {K : Type} `{!EqDecision K, !Countable K} {V : Type}.

Lemma foldl_insert_member (kvs : list (K * V)) (d : gmap K V) (k : K) :
  k ∈ kvs.*1 →
  ∃ v, (k, v) ∈ kvs ∧ foldl (λ d kv, <[kv.1 := kv.2]> d) d kvs !! k = Some v.
Proof.
  revert d. induction kvs as [|[k' v'] kvs IH]; intros d Hk.
  - by apply elem_of_nil in Hk.
  - cbn [foldl fst snd]. destruct (decide (k ∈ kvs.*1)) as [Hin|Hout].
    + destruct (IH (<[k':=v']> d) Hin) as (v & Hv & Hlook).
      exists v. split; [by right | done].
    + cbn [fmap list_fmap fst] in Hk. apply elem_of_cons in Hk as [->|Hk]; [|done].
      exists v'. split; [by left|].
      rewrite foldl_insert_other by done. apply lookup_insert_eq.
Qed.
End dict_members.

Section season_reads.
Context `{FloatOps F}.
Implicit Types (self : LocalLeagueRepository.db F) (season_id : UUID).

(** X14. [list_season_participants] returns the participant rows of the season,
    each as often as it is stored and no other row, with the seeds in
    ascending order and the rows without seed first. *)
Theorem list_season_participants_sorted self season_id :
  LocalLeagueRepository.list_season_participants self season_id
  ≡ₚ filter (λ p, SeasonParticipant.season_id p = season_id)
       (LocalLeagueRepository.season_participants self) ∧
  StronglySorted by_seed (LocalLeagueRepository.list_season_participants self season_id) ∧
  (∀ p, p ∈ LocalLeagueRepository.list_season_participants self season_id
        ↔ p ∈ LocalLeagueRepository.season_participants self ∧
          SeasonParticipant.season_id p = season_id).
Proof.
  unfold LocalLeagueRepository.list_season_participants.
  split; [apply merge_sort_Permutation|].
  split; [apply StronglySorted_merge_sort; apply _|].
  intros p. rewrite merge_sort_Permutation, list_elem_of_filter. tauto.
Qed.

(** X15. [list_events] returns the events of the season, each as often as it is
    stored and no other event, in ascending order of [held_on]. *)
Theorem list_events_sorted self season_id :
  LocalLeagueRepository.list_events self season_id
  ≡ₚ filter (λ e, EventDay.season_id e = season_id) (LocalLeagueRepository.events self) ∧
  StronglySorted by_held_on (LocalLeagueRepository.list_events self season_id) ∧
  (∀ e, e ∈ LocalLeagueRepository.list_events self season_id
        ↔ e ∈ LocalLeagueRepository.events self ∧ EventDay.season_id e = season_id).
Proof.
  unfold LocalLeagueRepository.list_events.
  split; [apply merge_sort_Permutation|].
  split; [apply StronglySorted_merge_sort; apply _|].
  intros e. rewrite merge_sort_Permutation, list_elem_of_filter. tauto.
Qed.

Lemma elem_of_list_events self season_id (e : EventDay.t F) :
  e ∈ LocalLeagueRepository.list_events self season_id
  ↔ e ∈ LocalLeagueRepository.events self ∧ EventDay.season_id e = season_id.
Proof.
  unfold LocalLeagueRepository.list_events.
  rewrite merge_sort_Permutation, list_elem_of_filter. tauto.
Qed.

Lemma elem_of_season_matches self season_id (m : Match.t) :
  m ∈ season_matches self season_id
  ↔ m ∈ LocalLeagueRepository.matches self ∧
    ∃ e, e ∈ LocalLeagueRepository.events self ∧
         EventDay.season_id e = season_id ∧ EventDay.id e = Match.event_id m.
Proof.
  unfold season_matches, LocalLeagueRepository.list_matches_for_events.
  assert (Hids : Match.event_id m
                   ∈ EventDay.id <$> LocalLeagueRepository.list_events self season_id
                 ↔ ∃ e, e ∈ LocalLeagueRepository.events self ∧
                        EventDay.season_id e = season_id ∧
                        EventDay.id e = Match.event_id m).
  { rewrite list_elem_of_fmap. split.
    - intros (e & Heq & He). apply elem_of_list_events in He as [He Hs]. eauto.
    - intros (e & He & Hs & Heq). exists e. split; [done|].
      by apply elem_of_list_events. }
  destruct (decide (_ = [])) as [Hnil|Hne].
  - split; [by intros ?%elem_of_nil|]. intros [_ Hev].
    apply Hids in Hev. rewrite Hnil in Hev. by apply elem_of_nil in Hev.
  - rewrite list_elem_of_filter, Hids. tauto.
Qed.

(** X16. The matches the season's matrix and standings are computed from are the
    stored matches whose event is an event of that season: a match of
    another season's event is never read, and with no event in the season no
    match is read. *)
Theorem season_matches_are_of_season_events self season_id :
  (∀ m, m ∈ season_matches self season_id
        ↔ m ∈ LocalLeagueRepository.matches self ∧
          ∃ e, e ∈ LocalLeagueRepository.events self ∧
               EventDay.season_id e = season_id ∧ EventDay.id e = Match.event_id m) ∧
  (LocalLeagueRepository.list_events self season_id = [] →
   season_matches self season_id = []).
Proof.
  split; [apply elem_of_season_matches|].
  intros Hnil. unfold season_matches, LocalLeagueRepository.list_matches_for_events.
  rewrite Hnil. done.
Qed.

(** X17. Every match read for a season is weighted by an event of that season
    with the match's event id: the default weight [1.0] is never used there.
    When event ids do not repeat in the store, that event is the one the
    match belongs to. *)
Theorem season_match_weight_is_event_weight self season_id (m : Match.t) :
  m ∈ season_matches self season_id →
  (∃ e, e ∈ LocalLeagueRepository.events self ∧ EventDay.season_id e = season_id ∧
        EventDay.id e = Match.event_id m ∧
        SeasonMatrix.event_weights (LocalLeagueRepository.list_events self season_id)
          !! Match.event_id m = Some (EventDay.weight e) ∧
        match_weight (LocalLeagueRepository.list_events self season_id) m
        = EventDay.weight e) ∧
  (NoDup (EventDay.id <$> LocalLeagueRepository.events self) →
   ∀ e, e ∈ LocalLeagueRepository.events self → EventDay.id e = Match.event_id m →
        match_weight (LocalLeagueRepository.list_events self season_id) m
        = EventDay.weight e).
Proof.
  intros Hm. apply elem_of_season_matches in Hm as (Hm & e & He & Hs & Hid).
  assert (Hex : ∃ e', e' ∈ LocalLeagueRepository.events self ∧
            EventDay.season_id e' = season_id ∧ EventDay.id e' = Match.event_id m ∧
            SeasonMatrix.event_weights (LocalLeagueRepository.list_events self season_id)
              !! Match.event_id m = Some (EventDay.weight e')).
  { unfold SeasonMatrix.event_weights, dict_comp.
    destruct (foldl_insert_member
      ((λ event, (EventDay.id event, EventDay.weight event))
         <$> LocalLeagueRepository.list_events self season_id) ∅ (Match.event_id m))
      as (w & Hw & Hlook).
    - rewrite <- list_fmap_compose, <- Hid. apply list_elem_of_fmap.
      exists e. split; [done|]. by apply elem_of_list_events.
    - apply list_elem_of_fmap in Hw as (e' & [= Hid' ->] & He').
      apply elem_of_list_events in He' as [He' Hs']. exists e'.
      split_and!; try done; congruence. }
  destruct Hex as (e' & He' & Hs' & Hid' & Hlook). split.
  - exists e'. split_and!; try done. unfold match_weight. by rewrite Hlook.
  - intros Hnd e2 He2 Hid2.
    assert (e2 = e') as ->.
    { apply list_elem_of_lookup in He2 as [i Hi], He' as [j Hj].
      assert (i = j) as ->.
      { apply (NoDup_lookup _ i j (Match.event_id m) Hnd);
          rewrite list_lookup_fmap; [rewrite Hi | rewrite Hj]; simpl; congruence. }
      congruence. }
    unfold match_weight. by rewrite Hlook.
Qed.
End season_reads.

(** ** The season matrix from the store *)

Section season_matrix.
Context `{FloatOps F}.
Implicit Types (self : LocalLeagueRepository.db F) (season_id : UUID).

(** X18. [compute_season_matrix] raises [ValueError] exactly for a season id that
    is not stored; for a stored season it raises [KeyError] exactly when some
    match read for the season has a cell of a player without participant row
    (C10 says which players those are); otherwise the matrix carries the
    season id and lists the participants' players in the order of
    [list_season_participants]. *)
Theorem compute_season_matrix_outcome self season_id :
  let ids := SeasonParticipant.player_id
               <$> LocalLeagueRepository.list_season_participants self season_id in
  let stored := season_id ∈ Season.id <$> LocalLeagueRepository.seasons self in
  let listed := Forall (cells_listed ids) (season_matches self season_id) in
  (LocalLeagueRepository.compute_season_matrix self season_id = inl ValueError
   ↔ ¬ stored) ∧
  (LocalLeagueRepository.compute_season_matrix self season_id = inl KeyError
   ↔ stored ∧ ¬ listed) ∧
  (∀ mx, LocalLeagueRepository.compute_season_matrix self season_id = inr mx →
     stored ∧ listed ∧
     SeasonMatrix.season_id mx = season_id ∧ SeasonMatrix.player_order mx = ids).
Proof.
  intros ids stored listed. subst stored listed.
  unfold LocalLeagueRepository.compute_season_matrix.
  fold (season_matches self season_id). fold ids.
  pose proof (get_season_None self season_id) as Hnone.
  pose proof (add_matches_listed ids
    (SeasonMatrix.event_weights (LocalLeagueRepository.list_events self season_id))
    (SeasonMatrix.zero_rows ids) (season_matches self season_id)
    (rows_over_zero_rows ids)) as Hlisted.
  destruct (LocalLeagueRepository.get_season self season_id) as [season|].
  - assert (Hstored : season_id ∈ Season.id <$> LocalLeagueRepository.seasons self).
    { destruct (decide (season_id ∈ Season.id <$> LocalLeagueRepository.seasons self));
        [done|]. by apply Hnone in n. }
    unfold SeasonMatrix.build.
    destruct (SeasonMatrix.add_matches _ _ (season_matches self season_id))
      as [rows'|]; simpl.
    + assert (Hall : Forall (cells_listed ids) (season_matches self season_id))
        by (apply Hlisted; eauto).
      split_and!.
      * split; [done | tauto].
      * split; [done | tauto].
      * by intros mx [= <-].
    + assert (Hsome : ¬ Forall (cells_listed ids) (season_matches self season_id)).
      { intros Hall. apply Hlisted in Hall. by destruct Hall. }
      split_and!.
      * split; [done | tauto].
      * split; [done | reflexivity].
      * done.
  - assert (Hmissing : season_id ∉ Season.id <$> LocalLeagueRepository.seasons self)
      by (by apply Hnone).
    split_and!.
    + done.
    + split; [done | tauto].
    + done.
Qed.
End season_matrix.

(** ** Players and participants *)

Section players.
Context `{FloatOps F}.
Implicit Types (self : LocalLeagueRepository.db F).

(** X20. [set_player_active] keeps the ids and the order of the players, gives
    every player with the id the new flag and changes nothing else; for an id
    that is not stored the store is as before and no error is raised. *)
Theorem set_player_active_only_flag self (player_id : UUID) (is_active : bool) :
  let self' := LocalLeagueRepository.set_player_active self player_id is_active in
  Player.id <$> LocalLeagueRepository.players self'
  = Player.id <$> LocalLeagueRepository.players self ∧
  (∀ i p, LocalLeagueRepository.players self !! i = Some p →
     ∃ p', LocalLeagueRepository.players self' !! i = Some p' ∧
       Player.id p' = Player.id p ∧ Player.display_name p' = Player.display_name p ∧
       Player.created_at p' = Player.created_at p ∧ Player.notes p' = Player.notes p ∧
       Player.is_active p'
       = if decide (Player.id p = player_id) then is_active else Player.is_active p) ∧
  (player_id ∉ Player.id <$> LocalLeagueRepository.players self → self' = self) ∧
  LocalLeagueRepository.seasons self' = LocalLeagueRepository.seasons self ∧
  LocalLeagueRepository.season_participants self'
  = LocalLeagueRepository.season_participants self ∧
  LocalLeagueRepository.events self' = LocalLeagueRepository.events self ∧
  LocalLeagueRepository.matches self' = LocalLeagueRepository.matches self.
Proof.
  intros self'. subst self'. unfold LocalLeagueRepository.set_player_active. simpl.
  split_and!; try done.
  - rewrite <- list_fmap_compose. apply list_fmap_ext. intros i p _. simpl.
    by case_decide.
  - intros i p Hp. rewrite list_lookup_fmap, Hp. simpl.
    eexists. split; [reflexivity|]. by case_decide.
  - intros Hmissing. destruct self as [players ? ? ? ?]. simpl in *. f_equal.
    apply fmap_unchanged. intros p Hp. rewrite decide_False; [done|].
    intros Heq. apply Hmissing. rewrite <- Heq. apply list_elem_of_fmap. by exists p.
Qed.

(** X21. [add_season_participant] stores the row exactly when its seed is
    NULL or a 64-bit integer and its season and its player exist.  After it the row is stored, it is the only row of that
    season and player (an earlier one is replaced, not doubled), and the rows
    of other season and player pairs and the other tables are as before. *)
Theorem add_season_participant_upserts self (participant : SeasonParticipant.t) :
  (is_Some (LocalLeagueRepository.add_season_participant self participant)
   ↔ sqlite_integer (SeasonParticipant.seed participant) ∧
     SeasonParticipant.season_id participant
       ∈ Season.id <$> LocalLeagueRepository.seasons self ∧
     SeasonParticipant.player_id participant
       ∈ Player.id <$> LocalLeagueRepository.players self) ∧
  (∀ self', LocalLeagueRepository.add_season_participant self participant = Some self' →
     participant ∈ LocalLeagueRepository.season_participants self' ∧
     (∀ q, q ∈ LocalLeagueRepository.season_participants self' →
           SeasonParticipant.season_id q = SeasonParticipant.season_id participant →
           SeasonParticipant.player_id q = SeasonParticipant.player_id participant →
           q = participant) ∧
     (∀ q, ¬ (SeasonParticipant.season_id q = SeasonParticipant.season_id participant ∧
              SeasonParticipant.player_id q = SeasonParticipant.player_id participant) →
           (q ∈ LocalLeagueRepository.season_participants self'
            ↔ q ∈ LocalLeagueRepository.season_participants self)) ∧
     LocalLeagueRepository.players self' = LocalLeagueRepository.players self ∧
     LocalLeagueRepository.seasons self' = LocalLeagueRepository.seasons self ∧
     LocalLeagueRepository.events self' = LocalLeagueRepository.events self ∧
     LocalLeagueRepository.matches self' = LocalLeagueRepository.matches self).
Proof.
  unfold LocalLeagueRepository.add_season_participant.
  destruct (decide (_ ∧ _)) as [Hrefs|Hrefs].
  - split; [split; eauto|]. intros self' [= <-]. simpl. split_and!; try done.
    + apply elem_of_app. right. by apply list_elem_of_singleton.
    + intros q [Hq|Hq]%elem_of_app Hs Hp.
      * apply list_elem_of_filter in Hq as [Hne _]. by destruct Hne.
      * by apply list_elem_of_singleton in Hq.
    + intros q Hne. rewrite elem_of_app, list_elem_of_filter, list_elem_of_singleton.
      split; [|tauto]. intros [[_ ?]| ->]; [done|]. by destruct Hne.
  - split; [|done]. split; [by intros [] | done].
Qed.
End players.

(** ** The constraints of the schema *)

Lemma NoDup_fmap_filter {A B : Type} (f : A → B) (P : A → Prop)
  `{!∀ x, Decision (P x)} (l : list A) :
  NoDup (f <$> l) → NoDup (f <$> filter P l).
Proof.
  induction l as [|x l IH]; [done|].
  cbn [fmap list_fmap]. rewrite NoDup_cons. intros [Hx Hl].
  rewrite filter_cons. case_decide; [|by apply IH].
  cbn [fmap list_fmap]. apply NoDup_cons. split; [|by apply IH].
  intros (y & Hy & Hin)%list_elem_of_fmap. apply Hx.
  apply list_elem_of_fmap. exists y. split; [done|].
  by apply list_elem_of_filter in Hin as [_ ?].
Qed.

Lemma NoDup_fmap_snoc {A B : Type} (f : A → B) (l : list A) (x : A) :
  NoDup (f <$> l) → f x ∉ f <$> l → NoDup (f <$> (l ++ [x])).
Proof.
  intros Hl Hx. rewrite fmap_app. apply NoDup_app. split; [done|].
  split; [|apply NoDup_singleton].
  intros y Hy ->%list_elem_of_singleton. done.
Qed.

Lemma elem_of_fmap_snoc {A B : Type} (f : A → B) (l : list A) (x : A) (y : B) :
  y ∈ f <$> l → y ∈ f <$> (l ++ [x]).
Proof. rewrite fmap_app, elem_of_app. tauto. Qed.

Lemma nullable_reference_mono (key : option UUID) (ids ids' : list UUID) :
  (∀ k, k ∈ ids → k ∈ ids') →
  nullable_reference key ids → nullable_reference key ids'.
Proof. destruct key; simpl; eauto. Qed.

Section schema.
Context `{FloatOps F} `{!FloatStore F}.
Implicit Types (self : LocalLeagueRepository.db F).

Lemma schema_ok_same_keys self self' :
  schema_ok self →
  Player.id <$> LocalLeagueRepository.players self'
  = Player.id <$> LocalLeagueRepository.players self →
  Season.id <$> LocalLeagueRepository.seasons self'
  = Season.id <$> LocalLeagueRepository.seasons self →
  LocalLeagueRepository.season_participants self'
  = LocalLeagueRepository.season_participants self →
  LocalLeagueRepository.events self' = LocalLeagueRepository.events self →
  LocalLeagueRepository.matches self' = LocalLeagueRepository.matches self →
  schema_ok self'.
Proof.
  intros [Hppk Hspk Hpapk Hepk Hmpk Hpafk Hefk Hmfk] Hp Hs Hsp He Hm.
  split; rewrite ?Hp, ?Hs, ?Hsp, ?He, ?Hm; done.
Qed.

Lemma add_player_schema_ok self player self' :
  schema_ok self → LocalLeagueRepository.add_player self player = Some self' →
  schema_ok self'.
Proof.
  intros [Hppk Hspk Hpapk Hepk Hmpk participants_fk0 events_fk0 matches_fk0] Hadd. unfold LocalLeagueRepository.add_player in Hadd.
  case_decide as Hfresh; [done|]. injection Hadd as <-.
  split; simpl; try done.
  - by apply NoDup_fmap_snoc.
  - intros p Hp. destruct (participants_fk0 p Hp). split; [done|].
    by apply elem_of_fmap_snoc.
  - intros m Hm. destruct (matches_fk0 m Hm) as (? & ? & ? & Hw).
    split_and!; try done; try by apply elem_of_fmap_snoc.
    eapply nullable_reference_mono; [|exact Hw].
    intros k. apply elem_of_fmap_snoc.
Qed.

Lemma add_season_schema_ok self season self' :
  schema_ok self → LocalLeagueRepository.add_season self season = Some self' →
  schema_ok self'.
Proof.
  intros [Hppk Hspk Hpapk Hepk Hmpk participants_fk0 events_fk0 matches_fk0] Hadd. unfold LocalLeagueRepository.add_season in Hadd.
  case_decide as Hfresh; [done|]. injection Hadd as <-.
  split; simpl; try done.
  - by apply NoDup_fmap_snoc.
  - intros p Hp. destruct (participants_fk0 p Hp). split; [|done].
    by apply elem_of_fmap_snoc.
  - intros e He. by apply elem_of_fmap_snoc, events_fk0.
Qed.

Lemma update_season_schema_ok self season :
  schema_ok self → schema_ok (LocalLeagueRepository.update_season self season).2.
Proof.
  intros Hok. apply (schema_ok_same_keys self); try done.
  - unfold LocalLeagueRepository.update_season. by case_decide.
  - unfold LocalLeagueRepository.update_season.
    assert (Hids : ∀ l : list Season.t,
      Season.id <$> ((λ s, if decide (Season.id s = Season.id season)
              then Season.mk (Season.id s) (Season.title season)
                     (Season.starts_on season) (Season.ends_on season)
                     (Season.created_at s) (Season.description season)
              else s) <$> l) = Season.id <$> l).
    { intros l. rewrite <- list_fmap_compose. apply list_fmap_ext.
      intros i s _. simpl. by case_decide. }
    case_decide; simpl; apply Hids.
  - unfold LocalLeagueRepository.update_season. by case_decide.
  - unfold LocalLeagueRepository.update_season. by case_decide.
  - unfold LocalLeagueRepository.update_season. by case_decide.
Qed.

Lemma set_player_active_schema_ok self player_id is_active :
  schema_ok self →
  schema_ok (LocalLeagueRepository.set_player_active self player_id is_active).
Proof.
  intros Hok. apply (schema_ok_same_keys self); try done.
  unfold LocalLeagueRepository.set_player_active. simpl.
  rewrite <- list_fmap_compose. apply list_fmap_ext. intros i p _. simpl.
  by case_decide.
Qed.

Lemma delete_season_schema_ok self season_id :
  schema_ok self → schema_ok (LocalLeagueRepository.delete_season self season_id).2.
Proof.
  intros Hok. unfold LocalLeagueRepository.delete_season.
  case_decide as Hcount; [done|].
  destruct Hok as [Hppk Hspk Hpapk Hepk Hmpk participants_fk0 events_fk0 matches_fk0].
  split; simpl.
  - done.
  - by apply NoDup_fmap_filter.
  - by apply NoDup_fmap_filter.
  - by apply NoDup_fmap_filter.
  - by apply NoDup_fmap_filter.
  - intros p [Hne Hp]%list_elem_of_filter.
    destruct (participants_fk0 p Hp) as [Hs ?]. split; [|done].
    apply list_elem_of_fmap in Hs as (s & Heq & Hs).
    apply list_elem_of_fmap. exists s. split; [done|].
    apply list_elem_of_filter. split; [congruence | done].
  - intros e [Hne He]%list_elem_of_filter.
    pose proof (events_fk0 e He) as Hs.
    apply list_elem_of_fmap in Hs as (s & Heq & Hs).
    apply list_elem_of_fmap. exists s. split; [done|].
    apply list_elem_of_filter. split; [congruence | done].
  - intros m [Hkept Hm]%list_elem_of_filter.
    destruct (matches_fk0 m Hm) as (Hev & ? & ? & ?). split_and!; try done.
    apply list_elem_of_fmap in Hev as (e & Heq & He).
    apply list_elem_of_fmap. exists e. split; [done|].
    apply list_elem_of_filter. split; [|done].
    intros Hs. apply Hkept. rewrite Heq. apply list_elem_of_fmap.
    exists e. split; [done|]. by apply list_elem_of_filter.
Qed.

Lemma add_season_participant_schema_ok self participant self' :
  schema_ok self →
  LocalLeagueRepository.add_season_participant self participant = Some self' →
  schema_ok self'.
Proof.
  intros [Hppk Hspk Hpapk Hepk Hmpk participants_fk0 events_fk0 matches_fk0] Hadd. unfold LocalLeagueRepository.add_season_participant in Hadd.
  case_decide as Hrefs; [|done]. destruct Hrefs as [_ Hrefs]. injection Hadd as <-.
  split; simpl; try done.
  - apply NoDup_fmap_snoc; [by apply NoDup_fmap_filter|].
    intros (q & [= Hs Hp] & Hq)%list_elem_of_fmap.
    apply list_elem_of_filter in Hq as [Hne _]. apply Hne. by split.
  - intros p [Hp|Hp]%elem_of_app.
    + apply list_elem_of_filter in Hp as [_ Hp]. by apply participants_fk0.
    + apply list_elem_of_singleton in Hp as ->. done.
Qed.

Lemma add_event_schema_ok self (event : EventDay.t F) self' :
  schema_ok self → LocalLeagueRepository.add_event self event = Some self' →
  schema_ok self'.
Proof.
  intros [Hppk Hspk Hpapk Hepk Hmpk participants_fk0 events_fk0 matches_fk0] Hadd. unfold LocalLeagueRepository.add_event in Hadd.
  case_decide as Hfresh; [done|]. case_decide as Hseason; [|done].
  destruct (f_stored (EventDay.weight event)) as [weight|]; [|done].
  injection Hadd as <-. split; simpl; try done.
  - by apply NoDup_fmap_snoc.
  - intros e [He|He]%elem_of_app; [by apply events_fk0|].
    by apply list_elem_of_singleton in He as ->.
  - intros m Hm. destruct (matches_fk0 m Hm) as (? & ? & ? & ?).
    split_and!; try done. by apply elem_of_fmap_snoc.
Qed.

Lemma add_match_schema_ok self (m : Match.t) self' :
  schema_ok self → LocalLeagueRepository.add_match self m = Some self' →
  schema_ok self'.
Proof.
  intros [Hppk Hspk Hpapk Hepk Hmpk participants_fk0 events_fk0 matches_fk0] Hadd. unfold LocalLeagueRepository.add_match in Hadd.
  case_decide as Hfresh; [done|]. case_decide as Hrefs; [|done].
  injection Hadd as <-. split; simpl; try done.
  - by apply NoDup_fmap_snoc.
  - intros m' [Hm'|Hm']%elem_of_app; [by apply matches_fk0|].
    by apply list_elem_of_singleton in Hm' as ->.
Qed.

(** X22. A store that satisfies the constraints of the schema (primary keys do
    not repeat, every foreign key names a stored row) still does after each
    writing method of the repository, whether the write succeeds or is
    refused. *)
Theorem writes_keep_schema self :
  schema_ok self →
  (∀ player self', LocalLeagueRepository.add_player self player = Some self' →
     schema_ok self') ∧
  (∀ player_id is_active,
     schema_ok (LocalLeagueRepository.set_player_active self player_id is_active)) ∧
  (∀ season self', LocalLeagueRepository.add_season self season = Some self' →
     schema_ok self') ∧
  (∀ season, schema_ok (LocalLeagueRepository.update_season self season).2) ∧
  (∀ season_id, schema_ok (LocalLeagueRepository.delete_season self season_id).2) ∧
  (∀ participant self',
     LocalLeagueRepository.add_season_participant self participant = Some self' →
     schema_ok self') ∧
  (∀ (event : EventDay.t F) self',
     LocalLeagueRepository.add_event self event = Some self' → schema_ok self') ∧
  (∀ m self', LocalLeagueRepository.add_match self m = Some self' → schema_ok self').
Proof.
  intros Hok. split_and!.
  - intros ? ?. by apply add_player_schema_ok.
  - intros ? ?. by apply set_player_active_schema_ok.
  - intros ? ?. by apply add_season_schema_ok.
  - intros ?. by apply update_season_schema_ok.
  - intros ?. by apply delete_season_schema_ok.
  - intros ? ?. by apply add_season_participant_schema_ok.
  - intros ? ?. by apply add_event_schema_ok.
  - intros ? ?. by apply add_match_schema_ok.
Qed.
End schema.

(** ** Matches whose winner is not one of the players *)

Section outsider.
Context `{FloatOps F}.

(** X23. The store accepts a winner who is neither player of the match.  Such a
    decisive match is a loss for each of its two players in the standings,
    gives nobody points and leaves every cell of the matrix as it was. *)
Theorem outsider_winner_is_loss_for_both (m : Match.t) (winner : UUID) (w : F) :
  Match.outcome m ≠ DRAW →
  Match.winner_id m = Some winner →
  winner ≠ Match.player_one_id m → winner ≠ Match.player_two_id m →
  (∀ self : SeasonStanding.t F, plays_in (SeasonStanding.player_id self) m →
     SeasonStanding.record_match self m w
     = SeasonStanding.mk F (SeasonStanding.season_id self)
         (SeasonStanding.player_id self) (SeasonStanding.wins self)
         (SeasonStanding.losses self + 1) (SeasonStanding.draws self)
         (SeasonStanding.weighted_points self)) ∧
  (∀ p, plays_in p m → Match.points_for_player m p w = f0_0) ∧
  (∀ (weights : gmap UUID F) (rows : gmap UUID (gmap UUID F)),
     SeasonMatrix.add_match weights rows m = Some rows).
Proof.
  intros Hd Hw H1 H2. split_and!.
  - intros self [Hp|Hp]; unfold SeasonStanding.record_match;
      rewrite decide_False by done;
      rewrite decide_False by (rewrite Hw, Hp; congruence);
      rewrite decide_True by (by rewrite Hw); done.
  - intros p [Hp|Hp]; unfold Match.points_for_player;
      rewrite decide_False by done; rewrite Hw;
      rewrite decide_False by congruence; done.
  - intros weights rows. unfold SeasonMatrix.add_match.
    rewrite decide_False by done.
    rewrite decide_False by (rewrite Hw; congruence).
    rewrite decide_False by (rewrite Hw; congruence). done.
Qed.
End outsider.

(** ** Events and matches in the store *)

Section event_store.
Context `{FloatOps F} `{!FloatStore F}.
Implicit Types (self : LocalLeagueRepository.db F).

(** X24. [add_event] stores the event exactly when its id is not taken, its
    season is stored and its weight is a value the column keeps.  The events
    [list_events] then returns for a season are the ones from before and, for
    the event's own season, the new event with the weight as stored and
    [created_at] cut to the second. *)
Theorem add_event_then_list self (event : EventDay.t F) :
  (is_Some (LocalLeagueRepository.add_event self event)
   ↔ (EventDay.id event ∉ EventDay.id <$> LocalLeagueRepository.events self) ∧
     EventDay.season_id event ∈ Season.id <$> LocalLeagueRepository.seasons self ∧
     is_Some (f_stored (EventDay.weight event))) ∧
  (∀ self', LocalLeagueRepository.add_event self event = Some self' →
     ∃ weight, f_stored (EventDay.weight event) = Some weight ∧
       (∀ season_id e,
          e ∈ LocalLeagueRepository.list_events self' season_id
          ↔ (e ∈ LocalLeagueRepository.list_events self season_id ∨
             (season_id = EventDay.season_id event ∧
              e = EventDay.mk F (EventDay.id event) (EventDay.season_id event)
                    (EventDay.title event) (EventDay.held_on event) weight
                    (_iso_datetime (EventDay.created_at event))
                    (EventDay.notes event))))).
Proof.
  unfold LocalLeagueRepository.add_event.
  destruct (decide (EventDay.id event ∈ _)) as [Hin|Hfresh].
  { split; [|done]. split; [by intros [] | tauto]. }
  destruct (decide (EventDay.season_id event ∈ _)) as [Hseason|Hseason].
  2:{ split; [|done]. split; [by intros [] | tauto]. }
  destruct (f_stored (EventDay.weight event)) as [weight|]; simpl.
  2:{ split; [|done]. split; [by intros [] | by intros (_ & _ & [])]. }
  split; [split; eauto|]. intros self' [= <-]. exists weight. split; [done|].
  intros season_id e. rewrite !elem_of_list_events. simpl.
  rewrite elem_of_app, list_elem_of_singleton. split.
  - intros [[He| ->] Hs]; [tauto|]. right. by split.
  - intros [[He Hs]|[-> ->]]; tauto.
Qed.

(** X25. [add_match] stores the match exactly when its id is not taken, its event
    and both players are stored and its winner is NULL or a stored player;
    the outcome and whether the winner plays in the match are not looked at.
    The matches read for a season afterwards are the ones from before and,
    when the match's event belongs to the season, the new match with
    [created_at] cut to the second. *)
Theorem add_match_then_read self (m : Match.t) :
  (is_Some (LocalLeagueRepository.add_match self m)
   ↔ (Match.id m ∉ Match.id <$> LocalLeagueRepository.matches self) ∧
     Match.event_id m ∈ EventDay.id <$> LocalLeagueRepository.events self ∧
     Match.player_one_id m ∈ Player.id <$> LocalLeagueRepository.players self ∧
     Match.player_two_id m ∈ Player.id <$> LocalLeagueRepository.players self ∧
     nullable_reference (Match.winner_id m)
       (Player.id <$> LocalLeagueRepository.players self)) ∧
  (∀ self', LocalLeagueRepository.add_match self m = Some self' →
     ∀ season_id m',
       m' ∈ season_matches self' season_id
       ↔ (m' ∈ season_matches self season_id ∨
          (m' = Match.mk (Match.id m) (Match.event_id m) (Match.player_one_id m)
                  (Match.player_two_id m) (Match.outcome m) (Match.winner_id m)
                  (_iso_datetime (Match.created_at m)) (Match.notes m) ∧
           (∃ e, e ∈ LocalLeagueRepository.events self ∧
                 EventDay.season_id e = season_id ∧
                 EventDay.id e = Match.event_id m)))).
Proof.
  unfold LocalLeagueRepository.add_match.
  destruct (decide (Match.id m ∈ _)) as [Hin|Hfresh].
  { split; [|done]. split; [by intros [] | tauto]. }
  destruct (decide (_ ∧ _)) as [Hrefs|Hrefs].
  2:{ split; [|done]. split; [by intros [] | tauto]. }
  split; [split; eauto|]. intros self' [= <-] season_id m'.
  rewrite !elem_of_season_matches. simpl.
  rewrite elem_of_app, list_elem_of_singleton. split.
  - intros [[Hm| ->] Hev]; [tauto|]. right. split; [done|]. exact Hev.
  - intros [[Hm Hev]|[-> Hev]]; [tauto|]. split; [by right|]. exact Hev.
Qed.
End event_store.

(** ** The season API *)

Section season_api.
Context `{FloatOps F}.
Implicit Types (repository : LocalLeagueRepository.db F) (season_id : UUID).

Lemma get_season_update_season repository (season : Season.t) (other : UUID) :
  LocalLeagueRepository.get_season
    (LocalLeagueRepository.update_season repository season).2 other
  = (λ s, if decide (Season.id s = Season.id season)
          then Season.mk (Season.id s) (Season.title season)
                 (Season.starts_on season) (Season.ends_on season)
                 (Season.created_at s) (Season.description season)
          else s) <$> LocalLeagueRepository.get_season repository other.
Proof.
  unfold LocalLeagueRepository.update_season, LocalLeagueRepository.get_season.
  case_decide; simpl; apply head_filter_fmap; intros s; by case_decide.
Qed.

Lemma filter_other_seasons (l : list Season.t) (season_id other : UUID) :
  other ≠ season_id →
  filter (λ s, Season.id s = other) (filter (λ s, Season.id s ≠ season_id) l)
  = filter (λ s, Season.id s = other) l.
Proof.
  intros Hne. induction l as [|s l IH]; [done|].
  rewrite !filter_cons. destruct (decide (Season.id s = other)) as [Hs|Hs].
  - rewrite decide_True by congruence. rewrite filter_cons, decide_True by done.
    by rewrite IH.
  - case_decide; [|done]. by rewrite filter_cons, decide_False.
Qed.

Lemma get_season_delete_season repository season_id (other : UUID) :
  LocalLeagueRepository.get_season
    (LocalLeagueRepository.delete_season repository season_id).2 other
  = if decide (other = season_id) then None
    else LocalLeagueRepository.get_season repository other.
Proof.
  unfold LocalLeagueRepository.delete_season.
  destruct (decide (length _ = 0%nat)) as [Hz|Hnz]; simpl.
  - case_decide as Heq; [|done]. subst other.
    apply get_season_None. by apply rowcount_0.
  - unfold LocalLeagueRepository.get_season. simpl.
    case_decide as Heq.
    + subst other. rewrite filter_none; [done|].
      intros s Hs Hid. by apply list_elem_of_filter in Hs as [? _].
    + by rewrite filter_other_seasons.
Qed.

Lemma ranges_ok_update repository (season : Season.t) :
  ranges_ok repository → Season.starts_on season ≤ Season.ends_on season →
  ranges_ok (LocalLeagueRepository.update_season repository season).2.
Proof.
  intros Hok Hrange s. unfold LocalLeagueRepository.update_season.
  case_decide; simpl; intros (s0 & -> & Hs0)%list_elem_of_fmap;
    case_decide; simpl; auto.
Qed.

Lemma delete_season_ranges repository season_id :
  ranges_ok repository →
  ranges_ok (LocalLeagueRepository.delete_season repository season_id).2.
Proof.
  intros Hok s. unfold LocalLeagueRepository.delete_season.
  case_decide; simpl; [apply Hok|].
  intros [_ Hs]%list_elem_of_filter. by apply Hok.
Qed.

(** X26. When every stored season ends on or after its start, this is still so
    after a create, update or delete request, whatever the request and
    whether it is answered or refused. *)
Theorem api_keeps_date_ranges repository :
  ranges_ok repository →
  (∀ (payload : SeasonCreate.t) (uuid4 : UUID) (utcnow : datetime),
     ranges_ok (Api.create_season payload uuid4 utcnow repository).2) ∧
  (∀ season_id (payload : SeasonUpdate.t),
     ranges_ok (Api.update_season season_id payload repository).2) ∧
  (∀ season_id, ranges_ok (Api.delete_season season_id repository).2).
Proof.
  intros Hok. split_and!.
  - intros payload uuid4 utcnow. unfold Api.create_season, Api._validate_date_range.
    case_decide as Hlt; [done|].
    unfold LocalLeagueRepository.create_season, LocalLeagueRepository.add_season.
    case_decide; simpl; [done|].
    intros s [Hs|Hs]%elem_of_app; [by apply Hok|].
    apply list_elem_of_singleton in Hs as ->. simpl. lia.
  - intros season_id payload. unfold Api.update_season.
    destruct (LocalLeagueRepository.get_season repository season_id)
      as [existing|]; [|done].
    unfold Api._validate_date_range. simpl.
    case_decide as Hlt; [done|].
    match goal with
    | |- context [LocalLeagueRepository.update_season repository ?s] =>
        pose proof (ranges_ok_update repository s Hok ltac:(simpl; lia)) as Hup;
        destruct (LocalLeagueRepository.update_season repository s) as [[saved|] r]
    end; exact Hup.
  - intros season_id. unfold Api.delete_season.
    pose proof (delete_season_ranges repository season_id Hok) as Hdel.
    by destruct (LocalLeagueRepository.delete_season repository season_id) as [[|] r].
Qed.
(** X27. An accepted update of a stored season answers with status 200 and the
    season as it now is: the stored id and [created_at], and for title, dates
    and description the payload's value where it gives one and the stored
    value otherwise.  A get request afterwards answers with the same body.  A
    description once set cannot be removed by an update, since a payload
    without description keeps the stored one. *)
Theorem update_season_answer season_id (payload : SeasonUpdate.t) repository
  (existing : Season.t) :
  LocalLeagueRepository.get_season repository season_id = Some existing →
  effective_starts_on existing payload ≤ effective_ends_on existing payload →
  let reply := Api.update_season season_id payload repository in
  let body :=
    SeasonResponse.mk season_id
      (default (Season.title existing) (SeasonUpdate.title payload))
      (effective_starts_on existing payload) (effective_ends_on existing payload)
      (Season.created_at existing)
      (match SeasonUpdate.description payload with
       | Some d => Some d
       | None => Season.description existing
       end) in
  reply.1 = Returned HTTP_200_OK body ∧
  Api.get_season season_id reply.2 = (Returned HTTP_200_OK body, reply.2) ∧
  (SeasonResponse.description body = None →
   Season.description existing = None ∧ SeasonUpdate.description payload = None).
Proof.
  intros Hget Hrange reply body. subst reply body.
  unfold effective_starts_on, effective_ends_on in *.
  pose proof (get_season_Some _ _ _ Hget) as [Hid Hrows].
  unfold Api.update_season, Api.get_season. rewrite Hget.
  unfold Api._validate_date_range. simpl.
  rewrite decide_False by lia.
  match goal with
  | |- context [LocalLeagueRepository.update_season repository ?s] =>
      pose proof (get_season_update_season repository s season_id) as Hafter;
      set (updated := s) in *
  end.
  rewrite Hget in Hafter. simpl in Hafter.
  rewrite decide_True in Hafter by done.
  unfold LocalLeagueRepository.update_season in *.
  rewrite decide_False in *
    by (subst updated; simpl; rewrite Hid; intros Hz;
        by apply length_zero_iff_nil in Hz).
  simpl in *. rewrite Hafter. subst updated. simpl. rewrite Hid.
  split_and!; try done.
  destruct (SeasonUpdate.description payload); [done|]. tauto.
Qed.

(** X28. A create request with a valid range and an unused id answers with status
    201 and the season with the clock's [created_at]; a get request for the
    new id then answers with status 200 and the same season except that
    [created_at] is cut to the second, so the two bodies agree exactly when
    the clock showed no microseconds.  Get requests for other ids answer as
    before. *)
Theorem create_season_then_get (payload : SeasonCreate.t) (uuid4 : UUID)
  (utcnow : datetime) repository :
  SeasonCreate.starts_on payload ≤ SeasonCreate.ends_on payload →
  uuid4 ∉ Season.id <$> LocalLeagueRepository.seasons repository →
  let reply := Api.create_season payload uuid4 utcnow repository in
  let body created_at :=
    SeasonResponse.mk uuid4 (SeasonCreate.title payload)
      (SeasonCreate.starts_on payload) (SeasonCreate.ends_on payload)
      created_at (SeasonCreate.description payload) in
  reply.1 = Returned HTTP_201_CREATED (body utcnow) ∧
  Api.get_season uuid4 reply.2
  = (Returned HTTP_200_OK (body (_iso_datetime utcnow)), reply.2) ∧
  (body (_iso_datetime utcnow) = body utcnow ↔ utcnow `mod` 1000000 = 0) ∧
  (∀ other, other ≠ uuid4 →
     (Api.get_season other reply.2).1 = (Api.get_season other repository).1).
Proof.
  intros Hrange Hfresh reply body. subst reply body.
  unfold Api.create_season, Api._validate_date_range.
  rewrite decide_False by lia.
  unfold LocalLeagueRepository.create_season, LocalLeagueRepository.add_season.
  simpl. rewrite decide_False by done. simpl.
  unfold Api.get_season. split_and!.
  - done.
  - rewrite get_season_app.
    rewrite (proj2 (get_season_None repository uuid4) Hfresh).
    simpl. by rewrite filter_cons_True, filter_nil.
  - unfold _iso_datetime.
    pose proof (Z.div_mod utcnow 1000000 ltac:(lia)) as Hdm.
    split; [intros [= Heq]; lia | intros Hz; f_equal; lia].
  - intros other Hother. rewrite get_season_app.
    destruct (LocalLeagueRepository.get_season repository other); [done|].
    by rewrite filter_cons_False, filter_nil by (simpl; congruence).
Qed.

(** X29. After a delete request, answered or refused, a get request and a second
    delete request for the same id answer with status 404, while get
    requests for other ids answer as before. *)
Theorem delete_season_then_get season_id repository :
  let repository' := (Api.delete_season season_id repository).2 in
  Api.get_season season_id repository'
  = (HTTPException HTTP_404_NOT_FOUND "Season not found", repository') ∧
  Api.delete_season season_id repository'
  = (HTTPException HTTP_404_NOT_FOUND "Season not found", repository') ∧
  (∀ other, other ≠ season_id →
     (Api.get_season other repository').1 = (Api.get_season other repository).1).
Proof.
  intros repository'.
  assert (Hstore : repository'
                   = (LocalLeagueRepository.delete_season repository season_id).2).
  { subst repository'. unfold Api.delete_season.
    by destruct (LocalLeagueRepository.delete_season repository season_id) as [[|] r]. }
  pose proof (get_season_delete_season repository season_id) as Hget.
  rewrite <- Hstore in Hget. clearbody repository'.
  assert (Hnone : LocalLeagueRepository.get_season repository' season_id = None).
  { rewrite Hget. by rewrite decide_True. }
  split_and!.
  - unfold Api.get_season. by rewrite Hnone.
  - apply get_season_None, rowcount_0 in Hnone.
    unfold Api.delete_season, LocalLeagueRepository.delete_season.
    rewrite Hnone. done.
  - intros other Hother. unfold Api.get_season. rewrite Hget.
    rewrite decide_False by done.
    by destruct (LocalLeagueRepository.get_season repository other).
Qed.

(** X30. A list request answers with status 200, leaves the store alone and
    returns every stored season once per stored row, in ascending order of
    [starts_on]. *)
Theorem list_seasons_answer repository :
  (Api.list_seasons repository).2 = repository ∧
  ∃ body, (Api.list_seasons repository).1 = Returned HTTP_200_OK body ∧
    body ≡ₚ Api._season_to_response <$> LocalLeagueRepository.seasons repository ∧
    StronglySorted (λ r r', SeasonResponse.starts_on r ≤ SeasonResponse.starts_on r')
      body.
Proof.
  split; [done|]. eexists. split; [reflexivity|]. split.
  - unfold LocalLeagueRepository.list_seasons. by rewrite merge_sort_Permutation.
  - apply (StronglySorted_fmap _ by_starts_on); [by intros s s'|].
    unfold LocalLeagueRepository.list_seasons.
    apply StronglySorted_merge_sort; apply _.
Qed.
End season_api.

(** ** The further properties on the sample league *)

Lemma sample_db_schema_ok `{FloatOps F} : schema_ok (F:=F) sample_db.
Proof.
  split.
  - apply (bool_decide_unpack _). vm_compute. exact I.
  - apply (bool_decide_unpack _). vm_compute. exact I.
  - apply (bool_decide_unpack _). vm_compute. exact I.
  - apply (bool_decide_unpack _). vm_compute. exact I.
  - apply (bool_decide_unpack _). vm_compute. exact I.
  - apply (proj1 (Forall_forall _ _)). apply (bool_decide_unpack _).
    vm_compute. exact I.
  - apply (proj1 (Forall_forall _ _)). apply (bool_decide_unpack _).
    vm_compute. exact I.
  - apply (proj1 (Forall_forall _ _)). apply (bool_decide_unpack _).
    vm_compute. exact I.
Defined.

Lemma sample_db_ranges_ok `{FloatOps F} : ranges_ok (F:=F) sample_db.
Proof.
  unfold ranges_ok.
  apply (proj1 (Forall_forall (λ s, Season.starts_on s ≤ Season.ends_on s) _)).
  apply (bool_decide_unpack _). vm_compute. exact I.
Defined.

Lemma standing_games_counted_witness :
  ∃ s, standing_of 1%N
         (LocalLeagueRepository.compute_season_standings (F:=binary64) sample_db 9%N)
       = Some s ∧
    SeasonStanding.wins s + SeasonStanding.losses s + SeasonStanding.draws s
    = Z.of_nat (length (filter counted
                          (filter (plays_in 1%N) (season_matches sample_db 9%N)))).
Proof.
  eexists. split; [vm_compute; reflexivity|].
  apply (standing_games_counted (F:=binary64) sample_db 9%N 1%N).
  vm_compute. reflexivity.
Defined.

Lemma build_cells_are_listed_pairs_witness :
  ∃ mx, SeasonMatrix.build (F:=binary64) 9%N [2%N; 3%N; 1%N] sample_events
          sample_matches = Some mx ∧
    ∀ a b, is_Some (get_cell (SeasonMatrix.rows mx) a b)
           ↔ a ∈ [2%N; 3%N; 1%N] ∧ b ∈ [2%N; 3%N; 1%N].
Proof.
  eexists. split; [reflexivity|].
  apply (build_cells_are_listed_pairs (F:=binary64) 9%N [2%N; 3%N; 1%N]
           sample_events sample_matches).
  reflexivity.
Defined.

Lemma cell_without_match_is_zero_witness :
  ∃ mx, SeasonMatrix.build (F:=binary64) 9%N [2%N; 3%N; 1%N] sample_events
          sample_matches = Some mx ∧
    Forall (λ m, ¬ between 2%N 3%N m) sample_matches ∧
    get_cell (SeasonMatrix.rows mx) 2%N 3%N = Some f0_0.
Proof.
  assert (Hnone : Forall (λ m, ¬ between 2%N 3%N m) sample_matches).
  { apply (bool_decide_unpack _). vm_compute. exact I. }
  eexists. split; [reflexivity|]. split; [exact Hnone|].
  apply (cell_without_match_is_zero (F:=binary64) 9%N [2%N; 3%N; 1%N]
           sample_events sample_matches).
  - reflexivity.
  - apply (bool_decide_unpack _). vm_compute. exact I.
  - apply (bool_decide_unpack _). vm_compute. exact I.
  - exact Hnone.
Defined.

Lemma cell_is_points_earned_witness :
  ∃ mx, SeasonMatrix.build (F:=binary64) 9%N [2%N; 3%N; 1%N] sample_events
          sample_matches = Some mx ∧
    get_cell (SeasonMatrix.rows mx) 2%N 1%N
    = Some (points_earned sample_events 2%N 1%N sample_matches).
Proof.
  eexists. split; [reflexivity|].
  apply (cell_is_points_earned (F:=binary64) 9%N [2%N; 3%N; 1%N]
           sample_events sample_matches).
  - reflexivity.
  - apply (bool_decide_unpack _). vm_compute. exact I.
  - apply (bool_decide_unpack _). vm_compute. exact I.
  - discriminate.
Defined.

(** Player 2 drew once and won twice against player 1: 1.0 + 2.0 + 1.0. *)
Example sample_points_earned :
  points_earned (F:=binary64) sample_events 2%N 1%N sample_matches
  = S754_finite false 4503599627370496 (-50).
Proof. vm_compute. reflexivity. Qed.

Lemma season_match_weight_is_event_weight_witness :
  sample_match 11 5 1 2 DRAW None ∈ season_matches (F:=binary64) sample_db 9%N ∧
  ∃ e, e ∈ LocalLeagueRepository.events (F:=binary64) sample_db ∧
       EventDay.season_id e = 9%N ∧ EventDay.id e = 5%N ∧
       match_weight (LocalLeagueRepository.list_events sample_db 9%N)
         (sample_match 11 5 1 2 DRAW None) = EventDay.weight e.
Proof.
  assert (Hm : sample_match 11 5 1 2 DRAW None
                 ∈ season_matches (F:=binary64) sample_db 9%N).
  { vm_compute. constructor. }
  split; [exact Hm|].
  destruct (season_match_weight_is_event_weight (F:=binary64) sample_db 9%N _ Hm)
    as [(e & He & Hs & Hid & _ & Hw) _].
  exists e. split_and!; done.
Defined.

Lemma writes_keep_schema_witness :
  schema_ok (F:=binary64) sample_db ∧
  schema_ok (LocalLeagueRepository.delete_season (F:=binary64) sample_db 9%N).2.
Proof.
  split; [apply sample_db_schema_ok|].
  apply (writes_keep_schema (F:=binary64) sample_db sample_db_schema_ok).
Defined.

Lemma outsider_winner_is_loss_for_both_witness :
  Match.outcome (sample_match 16 5 1 2 PLAYER_ONE_WIN (Some 3%N)) ≠ DRAW ∧
  SeasonStanding.record_match (F:=binary64) (SeasonStanding.new 9 1)
    (sample_match 16 5 1 2 PLAYER_ONE_WIN (Some 3%N)) f1_0
  = SeasonStanding.mk binary64 9 1 0 1 0 f0_0.
Proof.
  assert (Hd : Match.outcome (sample_match 16 5 1 2 PLAYER_ONE_WIN (Some 3%N)) ≠ DRAW)
    by discriminate.
  split; [exact Hd|].
  apply (proj1 (outsider_winner_is_loss_for_both (F:=binary64)
                  (sample_match 16 5 1 2 PLAYER_ONE_WIN (Some 3%N)) 3%N f1_0
                  Hd eq_refl ltac:(discriminate) ltac:(discriminate))
           (SeasonStanding.new 9 1)).
  left. reflexivity.
Defined.

Lemma api_keeps_date_ranges_witness :
  ranges_ok (F:=binary64) sample_db ∧
  ranges_ok (Api.update_season (F:=binary64) 9%N
               (SeasonUpdate.mk None (Some 210) None None) sample_db).2.
Proof.
  split; [apply sample_db_ranges_ok|].
  apply (api_keeps_date_ranges (F:=binary64) sample_db sample_db_ranges_ok).
Defined.

Lemma update_season_answer_witness :
  LocalLeagueRepository.get_season (F:=binary64) sample_db 9%N
  = Some (Season.mk 9 "summer" 200 230 0 None) ∧
  (Api.update_season (F:=binary64) 9%N
     (SeasonUpdate.mk None (Some 210) None (Some "hot"%string)) sample_db).1
  = Returned HTTP_200_OK (SeasonResponse.mk 9 "summer" 210 230 0 (Some "hot"%string)).
Proof.
  split; [reflexivity|].
  apply (update_season_answer (F:=binary64) 9%N
           (SeasonUpdate.mk None (Some 210) None (Some "hot"%string)) sample_db
           (Season.mk 9 "summer" 200 230 0 None)).
  - reflexivity.
  - vm_compute. discriminate.
Defined.

Lemma create_season_then_get_witness :
  (Api.create_season (F:=binary64) (SeasonCreate.mk "autumn" 300 330 None)
     10%N 1234567 sample_db).1
  = Returned HTTP_201_CREATED (SeasonResponse.mk 10 "autumn" 300 330 1234567 None) ∧
  (Api.get_season 10%N
     (Api.create_season (F:=binary64) (SeasonCreate.mk "autumn" 300 330 None)
        10%N 1234567 sample_db).2).1
  = Returned HTTP_200_OK (SeasonResponse.mk 10 "autumn" 300 330 1000000 None).
Proof.
  destruct (create_season_then_get (F:=binary64)
              (SeasonCreate.mk "autumn" 300 330 None) 10%N 1234567 sample_db)
    as (Hcreate & Hget & _).
  - vm_compute. discriminate.
  - apply (bool_decide_unpack _). vm_compute. exact I.
  - split; [exact Hcreate|]. by rewrite Hget.
Defined.

(** A NaN weight is refused by the events table, and [-0.0] is kept as
    [0.0]. *)
Example sample_add_event_nan :
  LocalLeagueRepository.add_event (F:=binary64) sample_db
    (sample_event 70 9 12 S754_nan) = None.
Proof. vm_compute. reflexivity. Qed.

Example sample_add_event_negative_zero :
  (LocalLeagueRepository.events <$>
     LocalLeagueRepository.add_event (F:=binary64) sample_db
       (sample_event 70 9 12 (S754_zero true))) ≫= last
  = Some (sample_event 70 9 12 (S754_zero false)).
Proof. vm_compute. reflexivity. Qed.

(** The new participant row replaces the one of the same season and player. *)
Example sample_reseed :
  LocalLeagueRepository.season_participants <$>
    LocalLeagueRepository.add_season_participant (F:=binary64) sample_db
      (SeasonParticipant.mk 9 1 None (Some "one"%string))
  = Some [ SeasonParticipant.mk 9 2 None None;
           SeasonParticipant.mk 8 1 None None;
           SeasonParticipant.mk 9 3 (Some 1) (Some "three"%string);
           SeasonParticipant.mk 9 1 None (Some "one"%string) ].
Proof. vm_compute. reflexivity. Qed.

(** In binary64 the two totals are rounded each on its own: with a draw at
    weight 0.1 and a win at weight 0.2 the cell is 0.25, its transpose 0.05
    and their sum 0.3, while 0.1 + 0.2 is 0.30000000000000004. *)
Example rounding_cells :
  match SeasonMatrix.build (F:=binary64) 9%N [1%N; 2%N] rounding_events
          rounding_matches with
  | Some mx =>
      get_cell (SeasonMatrix.rows mx) 1%N 2%N
      = Some (S754_finite false 4503599627370496 (-54)) ∧
      get_cell (SeasonMatrix.rows mx) 2%N 1%N
      = Some (S754_finite false 7205759403792794 (-57)) ∧
      (S754_finite false 4503599627370496 (-54)
       ⊕ S754_finite false 7205759403792794 (-57) : binary64)
      = S754_finite false 5404319552844595 (-54) ∧
      total_weight_exchanged rounding_events 1%N 2%N rounding_matches
      = S754_finite false 5404319552844596 (-54)
  | None => False
  end.
Proof. vm_compute. repeat split; reflexivity. Qed.

(** The cell plus its transpose is not the total weight exchanged there,
    though every hypothesis of C1 holds. *)
Lemma cell_plus_transpose_not_total_weight :
  ∃ mx, SeasonMatrix.build (F:=binary64) 9%N [1%N; 2%N] rounding_events
          rounding_matches = Some mx ∧
    1%N ∈ [1%N; 2%N] ∧ 2%N ∈ [1%N; 2%N] ∧ 1%N ≠ 2%N ∧
    Forall winner_plays rounding_matches ∧
    ∃ x y, get_cell (SeasonMatrix.rows mx) 1%N 2%N = Some x ∧
           get_cell (SeasonMatrix.rows mx) 2%N 1%N = Some y ∧
           x ⊕ y ≠ total_weight_exchanged rounding_events 1%N 2%N rounding_matches.
Proof.
  eexists. split; [reflexivity|].
  split; [apply (bool_decide_unpack _); vm_compute; exact I|].
  split; [apply (bool_decide_unpack _); vm_compute; exact I|].
  split; [discriminate|].
  split; [apply (bool_decide_unpack _); vm_compute; exact I|].
  eexists _, _. split; [vm_compute; reflexivity|]. split; [vm_compute; reflexivity|].
  vm_compute. discriminate.
Qed.

Lemma cell_plus_transpose_is_sum_of_shares_witness :
  ∃ mx, SeasonMatrix.build (F:=binary64) 9%N [1%N; 2%N] rounding_events
          rounding_matches = Some mx ∧
    Forall winner_plays rounding_matches ∧
    ∃ x y, get_cell (SeasonMatrix.rows mx) 1%N 2%N = Some x ∧
           get_cell (SeasonMatrix.rows mx) 2%N 1%N = Some y ∧
           x ⊕ y = side_total rounding_events 1%N 2%N rounding_matches
                   ⊕ side_total rounding_events 2%N 1%N rounding_matches.
Proof.
  assert (Hwin : Forall winner_plays rounding_matches).
  { apply (bool_decide_unpack _). vm_compute. exact I. }
  eexists. split; [reflexivity|]. split; [exact Hwin|].
  destruct (cell_plus_transpose_is_sum_of_shares (F:=binary64) 9%N [1%N; 2%N]
              rounding_events rounding_matches _ 1%N 2%N eq_refl)
    as [(x & y & Hx & Hy & _ & _ & Hsum) _].
  - apply (bool_decide_unpack _). vm_compute. exact I.
  - apply (bool_decide_unpack _). vm_compute. exact I.
  - discriminate.
  - exact Hwin.
  - exists x, y. split; [exact Hx|]. split; [exact Hy|]. exact Hsum.
Defined.
